(** * BIBS: the agent of the belief-induced behaviour simulation

    A shallow embedding of [src/src/agent.cpp] (classes [IAgent] and
    [Agent], declared in [src/include/bibs/agent.hpp]) and the properties
    of its activation update, utility and behaviour selection.

    - [double] is the kernel's binary64 float, so sums and products round,
      overflow and propagate NaN as they do in the program.
    - [std::map] is a [gmap]; a range-for over a map visits its entries in
      ascending key order ([entries]).
    - Pointers ([const IBelief *], [const IBehaviour *], [const IAgent *])
      are addresses in [N]; [nullptr] is address 0.
    - A [const] member function that may throw [std::out_of_range] returns
      an [option]; a mutating member function returns the exit [status]
      together with the agent as it is when the call ends. *)

From Stdlib Require Import ZArith Floats.
From stdpp Require Import gmap list sorting.

Local Open Scope float_scope.

(** ** Values *)

Abbreviation double := float (only parsing).
Abbreviation IBelief_ptr := N (only parsing).
Abbreviation IBehaviour_ptr := N (only parsing).
Abbreviation IAgent_ptr := N (only parsing).

(** [sim_time_t] is the integer type that [bibs/bibs.hpp] declares. Times
    are integers here, and the conversion of the expression [t - 1] back to
    [sim_time_t] (a wrap-around, should the type be unsigned) is the field
    [to_sim_time] of the collaborators below. *)
Abbreviation sim_time_t := Z (only parsing).

Definition nullptr : N := 0%N.

(** [std::numeric_limits<double>::lowest()], i.e. [-DBL_MAX]. *)
Definition lowest : double := -0x1.fffffffffffffp+1023.

(** The least exponent of a binary64 mantissa taken as an integer. *)
Definition emin64 : Z := SpecFloat.emin 53 1024.

(** ** Ordered maps *)

(** The order of the keys of a [std::map] keyed by addresses. *)
Definition key_le {V : Type} : relation (N * V) := λ x y, (x.1 ≤ y.1)%N.

#[global] Instance key_le_dec {V : Type} : RelDecision (@key_le V).
Proof. intros x y. unfold key_le. apply _. Defined.

#[global] Instance key_le_trans {V : Type} : Transitive (@key_le V).
Proof. intros x y z. unfold key_le. lia. Qed.

#[global] Instance key_le_total {V : Type} : Total (@key_le V).
Proof. intros x y. unfold key_le. lia. Qed.

(** The entries of such a map, in the order a range-for visits them. *)
Definition entries {V : Type} (m : gmap N V) : list (N * V) :=
  merge_sort key_le (map_to_list m).

(** [m.emplace(k, v)]: inserts only when [k] is not yet a key. *)
Definition emplace `{Countable K} {V : Type} (k : K) (v : V)
    (m : gmap K V) : gmap K V :=
  match m !! k with
  | Some _ => m
  | None => <[k := v]> m
  end.

(** [m.insert_or_assign(k, v)] and [m[k] = v]. *)
Definition insert_or_assign `{Countable K} {V : Type} (k : K) (v : V)
    (m : gmap K V) : gmap K V :=
  <[k := v]> m.

(** A range-for whose body is [acc += term(x)], where [term] may throw. *)
Fixpoint accumulate {A : Type} (term : A → option double) (xs : list A)
    (acc : double) : option double :=
  match xs with
  | [] => Some acc
  | x :: xs' => v ← term x; accumulate term xs' (acc + v)
  end.

(** ** Collaborators *)

(** What an agent calls but does not own. The three [IBelief] lookups are
    virtual (the belief called first, then its argument); [None] is the
    [std::out_of_range] of a missing key. [friend_performed a t] is the
    virtual call [a->performed(t)] on a friend, as the friends are while
    the agent runs one member function: no member function that reads it
    writes a performed record before it returns. [std_exp] is [std::exp] of
    the C library. *)
Record World := {
  beliefRelationship : IBelief_ptr → IBelief_ptr → option double;
  observedBehaviourRelationship : IBelief_ptr → IBehaviour_ptr → option double;
  performingBehaviourRelationship : IBelief_ptr → IBehaviour_ptr → option double;
  friend_performed : IAgent_ptr → sim_time_t → option IBehaviour_ptr;
  std_exp : double → double;
  to_sim_time : Z → sim_time_t
}.

(** ** The agent *)

Record Agent := {
  uuid : N;
  activationMap : gmap Z (gmap N double);
  performedMap : gmap Z N;
  friends : gmap N double;
  timeDeltaMap : gmap N double
}.

(** [Agent(uuid)] and [Agent(uuid, activationMap)]. *)
Definition new_Agent (u : N) : Agent :=
  {| uuid := u; activationMap := ∅; performedMap := ∅;
     friends := ∅; timeDeltaMap := ∅ |}.

Definition new_Agent_with (u : N) (am : gmap Z (gmap N double)) : Agent :=
  {| uuid := u; activationMap := am; performedMap := ∅;
     friends := ∅; timeDeltaMap := ∅ |}.

Definition set_activationMap (am : gmap Z (gmap N double)) (a : Agent) : Agent :=
  {| uuid := uuid a; activationMap := am; performedMap := performedMap a;
     friends := friends a; timeDeltaMap := timeDeltaMap a |}.

Definition set_performedMap (pm : gmap Z N) (a : Agent) : Agent :=
  {| uuid := uuid a; activationMap := activationMap a; performedMap := pm;
     friends := friends a; timeDeltaMap := timeDeltaMap a |}.

Definition set_friends (fs : gmap N double) (a : Agent) : Agent :=
  {| uuid := uuid a; activationMap := activationMap a;
     performedMap := performedMap a; friends := fs;
     timeDeltaMap := timeDeltaMap a |}.

Definition set_timeDeltaMap (tds : gmap N double) (a : Agent) : Agent :=
  {| uuid := uuid a; activationMap := activationMap a;
     performedMap := performedMap a; friends := friends a;
     timeDeltaMap := tds |}.

(** How a mutating member function ends. *)
Inductive status := Normal | OutOfRange.

(** A computation that may draw once from [std::discrete_distribution]:
    [Rand weights k] draws an index [i] with the given weights and goes on
    as [k i]; [Det x] never touches the random engine. *)
Inductive choice (A : Type) :=
  | Det (x : A)
  | Rand (weights : list double) (k : nat → A).
Arguments Det {A} x.
Arguments Rand {A} weights k.

Section agent.
Variable W : World.

Definition activation (a : Agent) (t : sim_time_t) (b : IBelief_ptr)
    : option double :=
  m ← activationMap a !! t; m !! b.

Definition performed (a : Agent) (t : sim_time_t) : option IBehaviour_ptr :=
  performedMap a !! t.

Definition _addPerformed (t : sim_time_t) (b : IBehaviour_ptr) (a : Agent)
    : Agent :=
  set_performedMap (insert_or_assign t b (performedMap a)) a.

Definition observed (a : Agent) (b : IBelief_ptr) (t : sim_time_t)
    : option double :=
  accumulate
    (λ '(fr, w), beh ← friend_performed W fr t;
                 r ← observedBehaviourRelationship W b beh;
                 Some (w * r))
    (entries (friends a)) 0.

Definition friendWeight (a : Agent) (fr : IAgent_ptr) : option double :=
  friends a !! fr.

Definition setFriendWeight (fr : IAgent_ptr) (w : double) (a : Agent) : Agent :=
  set_friends (insert_or_assign fr w (friends a)) a.

Definition heldBeliefs (a : Agent) (t : sim_time_t)
    : option (list IBelief_ptr) :=
  m ← activationMap a !! t; Some ((entries m).*1).

Definition contextualise (a : Agent) (b : IBelief_ptr) (t : sim_time_t)
    : option double :=
  bs ← heldBeliefs a t;
  value_to_exp ←
    accumulate (λ b2, act ← activation a t b2;
                      r ← beliefRelationship W b b2;
                      Some (act * r)) bs 0;
  Some (std_exp W value_to_exp).

Definition contextualObserved (a : Agent) (b : IBelief_ptr) (t : sim_time_t)
    : option double :=
  c ← contextualise a b t; o ← observed a b t; Some (c * o).

Definition timeDelta (a : Agent) (b : IBelief_ptr) : option double :=
  timeDeltaMap a !! b.

Definition setTimeDelta (b : IBelief_ptr) (td : double) (a : Agent) : Agent :=
  set_timeDeltaMap (insert_or_assign b td (timeDeltaMap a)) a.

(** The [try] block inserts into the sub-map of [t]; the handler runs
    when [activationMap.at(t)] throws, creates the sub-map and inserts
    there. *)
Definition store_activation (t : sim_time_t) (b : IBelief_ptr)
    (newActivation : double) (am : gmap Z (gmap N double))
    : gmap Z (gmap N double) :=
  match am !! t with
  | Some mt => <[t := emplace b newActivation mt]> am
  | None =>
      let am' := emplace t ∅ am in
      match am' !! t with
      | Some mt => <[t := emplace b newActivation mt]> am'
      | None => am'
      end
  end.

Definition updateActivation (t : sim_time_t) (b : IBelief_ptr) (a : Agent)
    : status * Agent :=
  match
    td ← timeDelta a b;
    act ← activation a (to_sim_time W (t - 1)) b;
    co ← contextualObserved a b (to_sim_time W (t - 1));
    Some (td * act + co)
  with
  | None => (OutOfRange, a)
  | Some newActivation =>
      (Normal,
       set_activationMap (store_activation t b newActivation (activationMap a)) a)
  end.

Definition beliefBehaviour (a : Agent) (bel : IBelief_ptr)
    (beh : IBehaviour_ptr) (t : sim_time_t) : option double :=
  r ← performingBehaviourRelationship W bel beh;
  act ← activation a t bel;
  Some (r * act).

Definition contextualBeliefBehaviour (a : Agent) (bel : IBelief_ptr)
    (beh : IBehaviour_ptr) (t : sim_time_t) : option double :=
  c ← contextualise a bel t;
  bb ← beliefBehaviour a bel beh t;
  Some (c * bb).

Definition contextualBehaviour (a : Agent) (b : IBehaviour_ptr)
    (t : sim_time_t) : option double :=
  m ← activationMap a !! t;
  accumulate (λ '(belief, _), contextualBeliefBehaviour a belief b t)
    (entries m) 0.

Definition environment (a : Agent) (b : IBehaviour_ptr) (t : sim_time_t)
    : double := 0.

Definition utility (a : Agent) (b : IBehaviour_ptr) (t : sim_time_t)
    : option double :=
  cb ← contextualBehaviour a b t; Some (cb + environment a b t).

(** The locals of [perform]. *)
Record scan := {
  maxUtility : double;
  maxBehaviour : IBehaviour_ptr;
  positiveBehaviours : list IBehaviour_ptr;
  positiveUtilities : list double
}.

Definition scan_init : scan :=
  {| maxUtility := lowest; maxBehaviour := nullptr;
     positiveBehaviours := []; positiveUtilities := [] |}.

(** One pass of the body of the loop, given [ut = utility(b, t)]. *)
Definition scan_step (s : scan) (b : IBehaviour_ptr) (ut : double) : scan :=
  let s1 :=
    if maxUtility s <? ut
    then {| maxUtility := ut; maxBehaviour := b;
            positiveBehaviours := positiveBehaviours s;
            positiveUtilities := positiveUtilities s |}
    else s in
  if 0 <? ut
  then {| maxUtility := maxUtility s1; maxBehaviour := maxBehaviour s1;
          positiveBehaviours := positiveBehaviours s1 ++ [b];
          positiveUtilities := positiveUtilities s1 ++ [ut] |}
  else s1.

Fixpoint scan_loop (a : Agent) (t : sim_time_t) (bs : list IBehaviour_ptr)
    (s : scan) : option scan :=
  match bs with
  | [] => Some s
  | b :: bs' => ut ← utility a b t; scan_loop a t bs' (scan_step s b ut)
  end.

Definition record_performed (t : sim_time_t) (b : IBehaviour_ptr) (a : Agent)
    : Agent :=
  set_performedMap (insert_or_assign t b (performedMap a)) a.

(** [positiveBehaviours[dist(eng)]]: the distribution only yields indices
    below the number of weights; [nth]'s default is never reached. *)
Definition perform (t : sim_time_t) (bs : list IBehaviour_ptr) (a : Agent)
    : choice (status * Agent) :=
  match scan_loop a t bs scan_init with
  | None => Det (OutOfRange, a)
  | Some s =>
      if (length (positiveUtilities s) <=? 1)%nat
      then Det (Normal, record_performed t (maxBehaviour s) a)
      else Rand (positiveUtilities s)
             (λ i, (Normal,
                    record_performed t (nth i (positiveBehaviours s) nullptr) a))
  end.

(** The loop of [IAgent::tick]: it stops at the first call that throws. *)
Fixpoint update_all (t : sim_time_t) (bels : list IBelief_ptr) (a : Agent)
    : status * Agent :=
  match bels with
  | [] => (Normal, a)
  | bel :: bels' =>
      match updateActivation t bel a with
      | (Normal, a') => update_all t bels' a'
      | (OutOfRange, a') => (OutOfRange, a')
      end
  end.

Definition tick (t : sim_time_t) (behs : list IBehaviour_ptr)
    (bels : list IBelief_ptr) (a : Agent) : choice (status * Agent) :=
  match update_all t bels a with
  | (Normal, a') => perform t behs a'
  | (OutOfRange, a') => Det (OutOfRange, a')
  end.

End agent.

(** ** Inputs for the examples *)

(** [std::exp] is the C library's and ISO C leaves its accuracy to the
    implementation. The theorems hold for every [std_exp]; the examples run
    with [exp_model]: the values that Annex F fixes at zeros, infinities and
    NaN, the overflow and underflow thresholds of binary64, and a scaled
    series elsewhere. *)
Fixpoint exp_series (n : nat) (k r : double) : double :=
  match n with
  | O => 1
  | S n' => 1 + (r / k) * exp_series n' (k + 1) r
  end.

Fixpoint square_times (n : nat) (y : double) : double :=
  match n with
  | O => y
  | S n' => square_times n' (y * y)
  end.

Definition exp_model (x : double) : double :=
  if is_nan x then nan
  else if x <? -746 then 0
  else if 710 <? x then infinity
  else if is_zero x then 1
  else square_times 10 (exp_series 20 1 (x / 1024)).

(** Beliefs live at addresses 1 and 2, behaviours at 5 and 6, one friend at
    9 who performed behaviour 5 at time 0. *)
Definition example_world : World := {|
  beliefRelationship := λ b b2,
    if decide (b2 = 1%N) then Some 0
    else if decide (b2 = 2%N) then Some (-10) else None;
  observedBehaviourRelationship := λ b beh,
    if decide (beh = 5%N) then Some 3 else None;
  performingBehaviourRelationship := λ bel beh,
    if decide (beh = 5%N) then Some 1
    else if decide (beh = 6%N) then Some (-1) else None;
  friend_performed := λ fr t,
    if decide (fr = 9%N ∧ t = 0%Z) then Some 5%N else None;
  std_exp := exp_model;
  to_sim_time := λ z, z
|}.

(** An agent that holds belief 1 with activation 1 at time 0, gives it
    the time delta 2, and weighs its friend 0.5. *)
Definition example_agent : Agent :=
  setFriendWeight 9%N 0.5
    (setTimeDelta 1%N 2 (new_Agent_with 7%N {[ 0%Z := {[ 1%N := 1 ]} ]})).

(** The same agent, with an activation of belief 1 already recorded at
    time 1. *)
Definition example_agent_recorded : Agent :=
  set_activationMap
    {[ 0%Z := {[ 1%N := 1 ]}; 1%Z := {[ 1%N := 5 ]} ]} example_agent.

(** [example_agent] after [updateActivation(1, belief 1)], and then with
    the time delta of belief 1 changed from 2 to 4. *)
Definition example_agent_updated : Agent :=
  (updateActivation example_world 1 1%N example_agent).2.

Definition example_agent_retimed : Agent :=
  setTimeDelta 1%N 4 example_agent_updated.

(** A world where both behaviours are worth performing: belief 1 weighs
    behaviour 5 by 3 and behaviour 6 by 1. *)
Definition example_world_keen : World := {|
  beliefRelationship := beliefRelationship example_world;
  observedBehaviourRelationship := observedBehaviourRelationship example_world;
  performingBehaviourRelationship := λ bel beh,
    if decide (beh = 5%N) then Some 3
    else if decide (beh = 6%N) then Some 1 else None;
  friend_performed := friend_performed example_world;
  std_exp := exp_model;
  to_sim_time := λ z, z
|}.



Definition example_agent_idle : Agent :=
  new_Agent_with 7%N {[ 0%Z := ∅ ]}.

(** ** Sums, as the specification words them *)

(** The sum over the beliefs held, [m] being the sub-map of the time, of
    [ctx(bel) * (perf(bel) * activation(bel))], added from 0.0 in the
    order of iteration. *)
Definition contextual_sum (ctx perf : N → double) (m : gmap N double)
    : double :=
  foldl (λ s c, s + ctx c.1 * (perf c.1 * c.2)) 0 (entries m).


(** ** Selection, as the specification words it *)

(** In the list [cs] of candidates with their utilities, the candidate at
    index [i] is [b] with utility [u], a number; no candidate has a utility
    above [u], and no earlier candidate has a utility as large as [u]: [b]
    has the maximum utility and is the first seen with it. *)
Definition first_maximum (cs : list (N * double)) (i : nat) (b : N)
    (u : double) : Prop :=
  cs !! i = Some (b, u)
  ∧ is_nan u = false
  ∧ (∀ j c, cs !! j = Some c → (u <? c.2) = false)
  ∧ (∀ j c, (j < i)%nat → cs !! j = Some c → (u <=? c.2) = false).

(** What the locals of [perform] hold after the candidates [pre]: still
    the initial pair while no utility has exceeded [lowest], and the first
    maximum of [pre] afterwards. *)
Definition tracks_maximum (pre : list (N * double)) (s : scan) : Prop :=
  (maxBehaviour s = nullptr ∧ maxUtility s = lowest
   ∧ ∀ c, c ∈ pre → (lowest <? c.2) = false)
  ∨ ((lowest <? maxUtility s) = true
     ∧ ∃ i, first_maximum pre i (maxBehaviour s) (maxUtility s)).

(** ** Names for parts of the member functions *)

(** The first statement of [updateActivation]: the value of
    [newActivation], when no lookup throws. *)
Definition new_activation (W : World) (a : Agent) (t : sim_time_t)
    (b : IBelief_ptr) : option double :=
  td ← timeDelta a b;
  act ← activation a (to_sim_time W (t - 1)) b;
  co ← contextualObserved W a b (to_sim_time W (t - 1));
  Some (td * act + co).

(** [r] is a way the computation [c] can end: its result when it draws
    nothing, its result for some index drawn otherwise. *)
Definition ends_with {A : Type} (c : choice A) (r : A) : Prop :=
  match c with
  | Det x => r = x
  | Rand _ k => ∃ i, r = k i
  end.

(** The candidates, listed with their utilities, that [perform] puts into
    [positiveBehaviours] and [positiveUtilities]. *)
Definition positive_candidates (cs : list (N * double)) : list (N * double) :=
  filter (λ c, (0 <? c.2) = true) cs.

(** An agent like [example_agent] that also gives belief 2 a time delta
    and holds it at time 0. *)
Definition example_agent_two : Agent :=
  setTimeDelta 2%N 0.5
    (setFriendWeight 9%N 0.5
       (setTimeDelta 1%N 2
          (new_Agent_with 7%N {[ 0%Z := {[ 1%N := 1; 2%N := 0 ]} ]}))).

(** An agent that holds, at time 0, the beliefs 1 and 3; in
    [example_world] no belief has a belief-relationship weight for
    belief 3. *)
Definition example_agent_unrelated : Agent :=
  new_Agent_with 7%N {[ 0%Z := {[ 1%N := 1; 3%N := 1 ]} ]}.

(** * Doubles *)

(** Two float literals differ when their binary64 decodings do. *)
Ltac literals_differ :=
  let H := fresh in
  intros H; apply (f_equal Prim2SF) in H; vm_compute in H; discriminate H.

(** [exp_model] has the values ISO C fixes for [exp]. *)
Example exp_model_special_values :
  exp_model 0 = 1 ∧ exp_model neg_zero = 1
  ∧ exp_model neg_infinity = 0 ∧ exp_model infinity = infinity
  ∧ exp_model nan = nan.
Proof. vm_compute. done. Qed.

(** ** Order *)

Ltac compare_cases :=
  repeat match goal with s : bool |- _ => destruct s end;
  try discriminate; try reflexivity;
  rewrite ?Pos.compare_cont_spec; unfold Pos.switch_Eq;
  repeat match goal with
    | |- context [(?x ?= ?y)%Z] => destruct (Z.compare_spec x y)
    end;
  try discriminate; try reflexivity; try lia; subst;
  repeat match goal with
    | |- context [(?x ?= ?y)%positive] => destruct (Pos.compare_spec x y)
    end;
  simpl; try discriminate; try reflexivity; try lia.

Lemma SFltb_trans x y z :
  SFltb x y = true → SFltb y z = true → SFltb x z = true.
Proof.
  unfold SFltb, SFcompare.
  destruct x as [sx|sx| |sx mx ex], y as [sy|sy| |sy my ey],
    z as [sz|sz| |sz mz ez]; try discriminate; compare_cases.
Qed.

Lemma SFltb_leb_trans x y z :
  SFltb x y = true → SFleb y z = true → SFltb x z = true.
Proof.
  unfold SFltb, SFleb, SFcompare.
  destruct x as [sx|sx| |sx mx ex], y as [sy|sy| |sy my ey],
    z as [sz|sz| |sz mz ez]; try discriminate; compare_cases.
Qed.

Lemma SFltb_irrefl x : SFltb x x = false.
Proof.
  unfold SFltb, SFcompare. destruct x as [s|s| |s m e]; compare_cases.
Qed.

(** What is above something is a number. *)
Lemma SFltb_not_nan x y : SFltb x y = true → SFeqb y y = true.
Proof.
  unfold SFltb, SFeqb, SFcompare.
  destruct x as [sx|sx| |sx mx ex], y as [sy|sy| |sy my ey];
    try discriminate; compare_cases.
Qed.


Lemma double_ltb_trans (x y z : double) :
  (x <? y) = true → (y <? z) = true → (x <? z) = true.
Proof. rewrite !ltb_spec. apply SFltb_trans. Qed.

Lemma double_ltb_leb_trans (x y z : double) :
  (x <? y) = true → (y <=? z) = true → (x <? z) = true.
Proof. rewrite !ltb_spec, leb_spec. apply SFltb_leb_trans. Qed.

Lemma double_ltb_irrefl (x : double) : (x <? x) = false.
Proof. rewrite ltb_spec. apply SFltb_irrefl. Qed.

Lemma double_ltb_not_nan (x y : double) : (x <? y) = true → is_nan y = false.
Proof.
  intros Hlt. rewrite ltb_spec in Hlt.
  unfold is_nan. by rewrite FloatAxioms.eqb_spec, (SFltb_not_nan _ _ Hlt).
Qed.


(** ** Sums and the negative zero *)

(** A sum of two doubles is the negative zero only when both are. It is
    shown on the decoded floats: the sum of two finite ones is rounded
    from a non-zero integer mantissa at an exponent not below the least
    one, and such a rounding never gives a zero. *)
Section rounding.
Local Open Scope Z_scope.

Lemma digits2_pos_lower p : 2 ^ (Z.pos (digits2_pos p) - 1) ≤ Z.pos p.
Proof.
  induction p as [p IH|p IH|]; simpl digits2_pos; [| |simpl; lia];
    rewrite Pos2Z.inj_succ;
    replace (Z.succ (Z.pos (digits2_pos p)) - 1)
      with (Z.succ (Z.pos (digits2_pos p) - 1)) by lia;
    rewrite Z.pow_succ_r by lia; lia.
Qed.

Lemma shr_1_m mrs : 0 ≤ shr_m mrs → shr_m (shr_1 mrs) = Z.div2 (shr_m mrs).
Proof.
  destruct mrs as [m r s]. simpl. destruct m as [|[p|p|]|p]; simpl; done.
Qed.

(** Shifting a record right [n] times shifts its mantissa right by [n]. *)
Lemma iter_pos_shr_1_m n mrs :
  0 ≤ shr_m mrs →
  shr_m (SpecFloat.iter_pos shr_1 n mrs) = Z.shiftr (shr_m mrs) (Z.pos n).
Proof.
  revert mrs.
  induction n as [n IH|n IH|]; intros mrs Hm; simpl SpecFloat.iter_pos.
  - assert (0 ≤ shr_m (shr_1 mrs)) as H1.
    { rewrite shr_1_m by done. by apply Z.div2_nonneg. }
    assert (0 ≤ shr_m (SpecFloat.iter_pos shr_1 n (shr_1 mrs))) as H2.
    { rewrite IH by done. by apply Z.shiftr_nonneg. }
    rewrite IH, IH, shr_1_m by done.
    rewrite Z.div2_spec, !Z.shiftr_shiftr by lia. f_equal. lia.
  - assert (0 ≤ shr_m (SpecFloat.iter_pos shr_1 n mrs)) as H2.
    { rewrite IH by done. by apply Z.shiftr_nonneg. }
    rewrite IH, IH by done. rewrite Z.shiftr_shiftr by lia. f_equal. lia.
  - rewrite shr_1_m by done. apply Z.div2_spec.
Qed.

(** The shift to the exponent of the format keeps a positive mantissa
    positive when the exponent is not below the least one. *)
Lemma shr_fexp_positive m e l mrs' e' :
  0 < m → emin64 ≤ e →
  shr_fexp 53 1024 m e l = (mrs', e') → 0 < shr_m mrs' ∧ emin64 ≤ e'.
Proof.
  intros Hm He. unfold shr_fexp, shr.
  destruct m as [|p|p]; try lia. simpl Zdigits2.
  assert (shr_m (shr_record_of_loc (Z.pos p) l) = Z.pos p) as Hl
    by (by destruct l as [|[| |]]).
  destruct (fexp 53 1024 (Z.pos (digits2_pos p) + e) - e) as [|n|n] eqn:Hn;
    intros [= <- <-]; [by rewrite Hl| |by rewrite Hl].
  split; [|lia]. rewrite iter_pos_shr_1_m, Hl by (by rewrite Hl).
  rewrite Z.shiftr_div_pow2 by lia.
  pose proof (digits2_pos_lower p) as Hd.
  assert (Z.pos n ≤ Z.pos (digits2_pos p) - 1) as Hle.
  { unfold fexp, emin64, SpecFloat.emin in *. lia. }
  apply Z.div_str_pos. split; [lia|].
  etrans; [|exact Hd]. apply Z.pow_le_mono_r; lia.
Qed.

Lemma round_nearest_even_positive m l : 0 < m → 0 < round_nearest_even m l.
Proof.
  intros Hm. destruct l as [|[| |]]; simpl; try done;
    [destruct (Z.even m)|]; lia.
Qed.

Lemma binary_round_aux_not_zero sx m e l s :
  0 < m → emin64 ≤ e → binary_round_aux 53 1024 sx m e l ≠ S754_zero s.
Proof.
  intros Hm He. unfold binary_round_aux.
  destruct (shr_fexp 53 1024 m e l) as [mrs' e'] eqn:H1.
  destruct (shr_fexp_positive m e l mrs' e' Hm He H1) as [Hm' He'].
  destruct (shr_fexp 53 1024
              (round_nearest_even (shr_m mrs') (loc_of_shr_record mrs'))
              e' loc_Exact) as [mrs'' e''] eqn:H2.
  destruct (shr_fexp_positive _ e' _ mrs'' e''
              (round_nearest_even_positive _ _ Hm') He' H2) as [Hm'' He''].
  destruct (shr_m mrs'') as [|p|p]; try lia.
  by destruct (e'' <=? 1024 - 53).
Qed.

Lemma binary_round_not_zero sx p e s :
  emin64 ≤ e → binary_round 53 1024 sx p e ≠ S754_zero s.
Proof.
  intros He. unfold binary_round.
  destruct (shl_align p e (fexp 53 1024 (Z.pos (digits2_pos p) + e)))
    as [mz ez] eqn:Hal.
  apply binary_round_aux_not_zero; [lia|].
  unfold shl_align in Hal.
  destruct (fexp 53 1024 (Z.pos (digits2_pos p) + e) - e) eqn:Hd;
    injection Hal as <- <-; try done.
  unfold fexp, emin64, SpecFloat.emin in *. lia.
Qed.

Lemma valid_finite_emin s m e :
  SpecFloat.valid_binary 53 1024 (S754_finite s m e) = true → emin64 ≤ e.
Proof.
  simpl. unfold bounded, canonical_mantissa. intros [H _]%andb_prop.
  apply Z.eqb_eq in H. unfold fexp, emin64, SpecFloat.emin in *. lia.
Qed.

Lemma SFadd_not_neg_zero x y :
  SpecFloat.valid_binary 53 1024 x = true →
  SpecFloat.valid_binary 53 1024 y = true →
  x ≠ S754_zero true → SFadd 53 1024 x y ≠ S754_zero true.
Proof.
  intros Hx Hy Hnz.
  destruct x as [[|]|sx| |sx mx ex], y as [[|]|sy| |sy my ey]; simpl;
    try done; try (by destruct sx); try (by destruct sx, sy).
  apply valid_finite_emin in Hx, Hy.
  unfold binary_normalize.
  destruct (cond_Zopp sx (Z.pos (shl_align mx ex (Z.min ex ey)).1)
            + cond_Zopp sy (Z.pos (shl_align my ey (Z.min ex ey)).1));
    try done; apply binary_round_not_zero; lia.
Qed.

End rounding.

Lemma double_add_not_neg_zero (x y : double) :
  x ≠ neg_zero → x + y ≠ neg_zero.
Proof.
  intros Hx Hsum. apply (f_equal Prim2SF) in Hsum. rewrite add_spec in Hsum.
  revert Hsum. apply SFadd_not_neg_zero; [apply Prim2SF_valid..|].
  intros Hz. apply Hx. by apply Prim2SF_inj.
Qed.

(** Adding 0.0 changes nothing but the sign of the negative zero. *)
Lemma double_add_zero (x : double) : x ≠ neg_zero → x + 0 = x.
Proof.
  intros Hx. apply Prim2SF_inj. rewrite add_spec.
  change (Prim2SF 0) with (S754_zero false).
  destruct (Prim2SF x) as [[|]|sx| |sx mx ex] eqn:Hp; try done.
  destruct Hx. by apply Prim2SF_inj.
Qed.

(** A sum accumulated from a double other than the negative zero is not
    the negative zero. *)
Lemma foldl_add_not_neg_zero {A : Type} (f : A → double) (l : list A)
    (acc : double) :
  acc ≠ neg_zero → foldl (λ s x, s + f x) acc l ≠ neg_zero.
Proof.
  revert acc. induction l as [|x l IH]; intros acc Hacc; simpl; [done|].
  apply IH. by apply double_add_not_neg_zero.
Qed.

(** * Maps and loops *)

Section containers.
Context {V : Type}.
Implicit Types (m : gmap N V) (k : N) (v : V).

Lemma elem_of_entries m k v : (k, v) ∈ entries m ↔ m !! k = Some v.
Proof.
  unfold entries. rewrite merge_sort_Permutation.
  apply elem_of_map_to_list.
Qed.

Lemma entries_empty : entries (∅ : gmap N V) = [].
Proof. unfold entries. by rewrite map_to_list_empty. Qed.

Lemma elem_of_entries_keys m k : k ∈ (entries m).*1 ↔ is_Some (m !! k).
Proof.
  rewrite list_elem_of_fmap. split.
  - intros [[k' v] [-> Hin]]. apply elem_of_entries in Hin. by exists v.
  - intros [v Hv]. exists (k, v). split; [done|]. by apply elem_of_entries.
Qed.
End containers.

Lemma accumulate_is_Some {A : Type} (term : A → option double) (xs : list A) :
  (∀ x, x ∈ xs → is_Some (term x)) →
  ∀ acc, is_Some (accumulate term xs acc).
Proof.
  induction xs as [|x xs IH]; intros Hdef acc; simpl.
  - by exists acc.
  - destruct (Hdef x) as [v Hv]; [by left|]. rewrite Hv. simpl.
    apply IH. intros y Hy. apply Hdef. by right.
Qed.

(** A term that throws makes the loop throw. *)
Lemma accumulate_None {A : Type} (term : A → option double) (xs : list A)
    (x : A) :
  x ∈ xs → term x = None → ∀ acc, accumulate term xs acc = None.
Proof.
  intros Hin Hx. induction xs as [|y xs IH]; intros acc; simpl.
  - by apply elem_of_nil in Hin.
  - apply elem_of_cons in Hin as [<-|Hin]; [by rewrite Hx|].
    destruct (term y); simpl; [by apply IH|done].
Qed.

(** When no term throws, the loop is the left fold of [+] from [acc]. *)
Lemma accumulate_total {A : Type} (term : A → option double)
    (value : A → double) (xs : list A) :
  (∀ x, x ∈ xs → term x = Some (value x)) →
  ∀ acc, accumulate term xs acc = Some (foldl (λ s x, s + value x) acc xs).
Proof.
  induction xs as [|x xs IH]; intros Hdef acc; simpl; [done|].
  rewrite (Hdef x) by (by left). simpl.
  apply IH. intros y Hy. apply Hdef. by right.
Qed.

(** ** Stores into the maps *)

Lemma emplace_fresh `{Countable K} {V : Type} (k : K) (v : V) (m : gmap K V) :
  m !! k = None → emplace k v m = <[k := v]> m.
Proof. intros Hk. unfold emplace. by rewrite Hk. Qed.

Lemma emplace_present `{Countable K} {V : Type} (k : K) (v old : V)
    (m : gmap K V) :
  m !! k = Some old → emplace k v m = m.
Proof. intros Hk. unfold emplace. by rewrite Hk. Qed.

Lemma emplace_lookup `{Countable K} {V : Type} (k : K) (v : V) (m : gmap K V) :
  emplace k v m !! k = Some (default v (m !! k)).
Proof.
  destruct (m !! k) as [old|] eqn:Hk; simpl.
  - by rewrite (emplace_present k v old m Hk).
  - rewrite (emplace_fresh k v m Hk). apply lookup_insert_eq.
Qed.

Lemma emplace_lookup_ne `{Countable K} {V : Type} (k k' : K) (v : V)
    (m : gmap K V) :
  k ≠ k' → emplace k v m !! k' = m !! k'.
Proof.
  intros Hne. unfold emplace. destruct (m !! k); [done|].
  by apply lookup_insert_ne.
Qed.

(** With no sub-map at [t], the handler leaves the one-entry sub-map. *)
Lemma store_activation_fresh_time t b v (am : gmap Z (gmap N double)) :
  am !! t = None → store_activation t b v am = <[t := {[ b := v ]}]> am.
Proof.
  intros Ht. unfold store_activation. rewrite Ht.
  rewrite (emplace_fresh t ∅ am Ht), lookup_insert_eq.
  rewrite (emplace_fresh b v ∅) by apply lookup_empty.
  by rewrite insert_insert_eq.
Qed.

Lemma store_activation_known_time t b v (am : gmap Z (gmap N double)) mt :
  am !! t = Some mt → store_activation t b v am = <[t := emplace b v mt]> am.
Proof. intros Ht. unfold store_activation. by rewrite Ht. Qed.

(** After the store, the activation at [(t, b)] is the one that was there
    before when there was one, and the new one otherwise. *)
Lemma store_activation_lookup t b v (am : gmap Z (gmap N double)) :
  (store_activation t b v am !! t ≫= (.!! b))
  = Some (default v (am !! t ≫= (.!! b))).
Proof.
  destruct (am !! t) as [mt|] eqn:Ht; simpl.
  - rewrite (store_activation_known_time t b v am mt Ht), lookup_insert_eq.
    simpl. apply emplace_lookup.
  - rewrite (store_activation_fresh_time t b v am Ht), lookup_insert_eq.
    simpl. apply lookup_singleton_eq.
Qed.

Lemma store_activation_other t b v (am : gmap Z (gmap N double)) t' b' :
  (t', b') ≠ (t, b) →
  (store_activation t b v am !! t' ≫= (.!! b')) = (am !! t' ≫= (.!! b')).
Proof.
  intros Hne. destruct (am !! t) as [mt|] eqn:Ht.
  - rewrite (store_activation_known_time t b v am mt Ht).
    destruct (decide (t' = t)) as [->|Ht'].
    + rewrite lookup_insert_eq, Ht. simpl.
      apply emplace_lookup_ne. congruence.
    + by rewrite lookup_insert_ne.
  - rewrite (store_activation_fresh_time t b v am Ht).
    destruct (decide (t' = t)) as [->|Ht'].
    + rewrite lookup_insert_eq, Ht. simpl.
      apply lookup_singleton_ne. congruence.
    + by rewrite lookup_insert_ne.
Qed.

(** * Friend weights and time deltas *)

(** C9: [setFriendWeight(a, w1)] then [friendWeight(a)] gives [w1]; a second
    [setFriendWeight(a, w2)] overwrites the first, leaving the agent as if
    only the second had been made, and [friendWeight(a)] gives [w2]. The
    same holds of [setTimeDelta] and [timeDelta]. *)
Theorem set_then_get_last_write_wins (ag : Agent) (a : N) (b : N)
    (w1 w2 : double) :
  friendWeight (setFriendWeight a w1 ag) a = Some w1
  ∧ friendWeight (setFriendWeight a w2 (setFriendWeight a w1 ag)) a = Some w2
  ∧ setFriendWeight a w2 (setFriendWeight a w1 ag) = setFriendWeight a w2 ag
  ∧ timeDelta (setTimeDelta b w1 ag) b = Some w1
  ∧ timeDelta (setTimeDelta b w2 (setTimeDelta b w1 ag)) b = Some w2
  ∧ setTimeDelta b w2 (setTimeDelta b w1 ag) = setTimeDelta b w2 ag.
Proof.
  unfold friendWeight, setFriendWeight, timeDelta, setTimeDelta,
    set_friends, set_timeDeltaMap, insert_or_assign. simpl.
  rewrite !lookup_insert_eq, !insert_insert_eq. done.
Qed.

(** Setting the weight of one friend leaves the weight of another. *)
Lemma setFriendWeight_other (ag : Agent) (a a' : N) (w : double) :
  a ≠ a' → friendWeight (setFriendWeight a w ag) a' = friendWeight ag a'.
Proof.
  intros Hne. unfold friendWeight, setFriendWeight, insert_or_assign. simpl.
  by apply lookup_insert_ne.
Qed.

Lemma setTimeDelta_other (ag : Agent) (b b' : N) (td : double) :
  b ≠ b' → timeDelta (setTimeDelta b td ag) b' = timeDelta ag b'.
Proof.
  intros Hne. unfold timeDelta, setTimeDelta, insert_or_assign. simpl.
  by apply lookup_insert_ne.
Qed.

(** * The activation update *)

Section activation_update.
Variable W : World.
Implicit Types (a : Agent) (t : Z) (b : N).

Lemma activation_lookup a t b m :
  activationMap a !! t = Some m → activation a t b = m !! b.
Proof. intros Hm. unfold activation. by rewrite Hm. Qed.

(** [observed] returns when every friend has a performed behaviour at
    [t] that the belief relates to. *)
Lemma observed_is_Some a b t :
  (∀ fr w, friends a !! fr = Some w →
     ∃ beh r, friend_performed W fr t = Some beh
              ∧ observedBehaviourRelationship W b beh = Some r) →
  is_Some (observed W a b t).
Proof.
  intros Hfr. unfold observed. apply accumulate_is_Some.
  intros [fr w] Hin. apply elem_of_entries in Hin.
  destruct (Hfr fr w Hin) as (beh & r & Hbeh & Hr).
  rewrite Hbeh. simpl. rewrite Hr. simpl. by eexists.
Qed.

(** [contextualise] returns when [t] has a sub-map and the belief relates
    to every belief held at [t]. *)
Lemma contextualise_is_Some a b t m :
  activationMap a !! t = Some m →
  (∀ b2, is_Some (m !! b2) → is_Some (beliefRelationship W b b2)) →
  is_Some (contextualise W a b t).
Proof.
  intros Hm Hrel. unfold contextualise, heldBeliefs. rewrite Hm. simpl.
  destruct (accumulate_is_Some
    (λ b2, act ← activation a t b2; r ← beliefRelationship W b b2;
           Some (act * r)) ((entries m).*1)) with (acc := 0%float)
    as [s Hs].
  - intros b2 Hin. apply elem_of_entries_keys in Hin.
    rewrite (activation_lookup a t b2 m Hm).
    destruct Hin as [act Hact]. rewrite Hact. simpl.
    destruct (Hrel b2) as [r Hr]; [by exists act|]. rewrite Hr. by eexists.
  - rewrite Hs. by eexists.
Qed.

(** A call that returns leaves at [(t, b)] the activation recorded there
    before, when there is one, and the newly computed one otherwise; every
    other activation is as before. *)
Lemma updateActivation_returns a t b v :
  (td ← timeDelta a b;
   act ← activation a (to_sim_time W (t - 1)) b;
   co ← contextualObserved W a b (to_sim_time W (t - 1));
   Some (td * act + co)) = Some v →
  (updateActivation W t b a).1 = Normal
  ∧ activation (updateActivation W t b a).2 t b
    = Some (default v (activation a t b))
  ∧ ∀ t' b', (t', b') ≠ (t, b) →
      activation (updateActivation W t b a).2 t' b' = activation a t' b'.
Proof.
  intros Hv. unfold updateActivation. rewrite Hv. simpl. split; [done|].
  unfold activation. simpl. split.
  - apply store_activation_lookup.
  - intros t' b' Hne. by apply store_activation_other.
Qed.

(** A call that throws returns the agent it was given. *)
Lemma updateActivation_throws a t b :
  (updateActivation W t b a).1 = OutOfRange →
  (updateActivation W t b a).2 = a
  ∧ (td ← timeDelta a b;
     act ← activation a (to_sim_time W (t - 1)) b;
     co ← contextualObserved W a b (to_sim_time W (t - 1));
     Some (td * act + co)) = None.
Proof.
  unfold updateActivation.
  destruct (td ← timeDelta a b; _) as [v|]; simpl; [discriminate|done].
Qed.

(** With [timeDelta(b)] and [activation(t-1, b)] defined, every friend
    having performed at [t-1] a behaviour the belief relates to, the belief
    related to every belief held at [t-1], and no activation recorded yet
    at [(t, b)], [updateActivation(t, b)] returns and the activation at
    [(t, b)] is then
    [timeDelta(b) * activation(t-1, b) + contextualise(b, t-1) * observed(b, t-1)]. *)
Lemma updateActivation_stores_new_activation a t b (td act : double) :
  timeDelta a b = Some td →
  activation a (to_sim_time W (t - 1)) b = Some act →
  (∀ fr w, friends a !! fr = Some w →
     ∃ beh r, friend_performed W fr (to_sim_time W (t - 1)) = Some beh
              ∧ observedBehaviourRelationship W b beh = Some r) →
  (∀ b2, is_Some (activation a (to_sim_time W (t - 1)) b2) →
         is_Some (beliefRelationship W b b2)) →
  activation a t b = None →
  ∃ c o,
    contextualise W a b (to_sim_time W (t - 1)) = Some c
    ∧ observed W a b (to_sim_time W (t - 1)) = Some o
    ∧ (updateActivation W t b a).1 = Normal
    ∧ activation (updateActivation W t b a).2 t b
      = Some (td * act + c * o).
Proof.
  intros Htd Hact Hfr Hrel Hnew.
  destruct (activationMap a !! to_sim_time W (t - 1)) as [m|] eqn:Hm;
    [|by unfold activation in Hact; rewrite Hm in Hact].
  destruct (contextualise_is_Some a b _ m Hm) as [c Hc].
  { intros b2 Hb2. apply Hrel.
    by rewrite (activation_lookup a _ b2 m Hm). }
  destruct (observed_is_Some a b _ Hfr) as [o Ho].
  exists c, o. split; [done|]. split; [done|].
  destruct (updateActivation_returns a t b (td * act + c * o))
    as (Hst & Hval & _).
  { unfold contextualObserved. rewrite Htd, Hact, Hc, Ho. done. }
  split; [done|]. rewrite Hval, Hnew. done.
Qed.

(** With an activation already recorded at [(t, b)], a call that returns
    leaves it there. *)
Lemma updateActivation_keeps_recorded a t b (old : double) :
  activation a t b = Some old →
  (updateActivation W t b a).1 = Normal →
  activation (updateActivation W t b a).2 t b = Some old.
Proof.
  intros Hold Hst.
  destruct (td ← timeDelta a b;
            act ← activation a (to_sim_time W (t - 1)) b;
            co ← contextualObserved W a b (to_sim_time W (t - 1));
            Some (td * act + co)) as [v|] eqn:Hv.
  - destruct (updateActivation_returns a t b v Hv) as (_ & Hval & _).
    by rewrite Hval, Hold.
  - unfold updateActivation in Hst. rewrite Hv in Hst. discriminate.
Qed.

(** C6: when [updateActivation(t, b)] ends by throwing, one of the lookups
    of [timeDelta(b)], [activation(t-1, b)], [contextualise(b, t-1)] and
    [observed(b, t-1)] has thrown, and the agent, and so its activation
    record, is as it was before the call. *)
Theorem updateActivation_failure_leaves_agent a t b :
  (updateActivation W t b a).1 = OutOfRange →
  (updateActivation W t b a).2 = a
  ∧ activationMap (updateActivation W t b a).2 = activationMap a
  ∧ (timeDelta a b = None
     ∨ activation a (to_sim_time W (t - 1)) b = None
     ∨ contextualise W a b (to_sim_time W (t - 1)) = None
     ∨ observed W a b (to_sim_time W (t - 1)) = None).
Proof.
  intros Hst. destruct (updateActivation_throws a t b Hst) as [Ha Hnone].
  split; [done|]. split; [by rewrite Ha|].
  unfold contextualObserved in Hnone.
  destruct (timeDelta a b); [|by left].
  destruct (activation a (to_sim_time W (t - 1)) b); [|by right; left].
  destruct (contextualise W a b (to_sim_time W (t - 1)));
    [|by right; right; left].
  destruct (observed W a b (to_sim_time W (t - 1))); [|by right; right; right].
  discriminate.
Qed.

End activation_update.

Lemma example_agent_friends fr w :
  friends example_agent !! fr = Some w → fr = 9%N ∧ w = 0.5.
Proof.
  unfold example_agent, setFriendWeight, set_friends, insert_or_assign.
  simpl. intros [[<- <-]|[_ Hw]]%lookup_insert_Some; [done|].
  by rewrite lookup_empty in Hw.
Qed.

Lemma example_agent_held b2 :
  is_Some (activation example_agent 0 b2) → b2 = 1%N.
Proof.
  unfold activation, example_agent. simpl. rewrite lookup_singleton_eq. simpl.
  intros [v [<- _]%lookup_singleton_Some]. done.
Qed.

(** [example_agent] meets the conditions at [t = 1] for belief 1, and the
    call stores 2 * 1 + 1 * (0.5 * 3) = 3.5. *)
Example updateActivation_example :
  contextualise example_world example_agent 1%N 0 = Some 1
  ∧ observed example_world example_agent 1%N 0 = Some 1.5
  ∧ (updateActivation example_world 1 1%N example_agent).1 = Normal
  ∧ activation example_agent_updated 1 1%N = Some 3.5.
Proof.
  destruct (updateActivation_stores_new_activation example_world
              example_agent 1 1%N 2 1) as (c & o & Hc & Ho & Hst & Hval).
  - vm_compute. reflexivity.
  - vm_compute. reflexivity.
  - intros fr w [-> ->]%example_agent_friends. exists 5%N, 3.
    split; vm_compute; reflexivity.
  - intros b2 ->%example_agent_held. by eexists.
  - vm_compute. reflexivity.
  - vm_compute. done.
Qed.

(** Belief 2 has no time delta: the call throws. *)
Lemma updateActivation_failure_leaves_agent_witness :
  (updateActivation example_world 1 2%N example_agent).1 = OutOfRange
  ∧ (updateActivation example_world 1 2%N example_agent).2 = example_agent
  ∧ activationMap (updateActivation example_world 1 2%N example_agent).2
    = activationMap example_agent
  ∧ (timeDelta example_agent 2%N = None
     ∨ activation example_agent (to_sim_time example_world (1 - 1)) 2%N = None
     ∨ contextualise example_world example_agent 2%N
         (to_sim_time example_world (1 - 1)) = None
     ∨ observed example_world example_agent 2%N
         (to_sim_time example_world (1 - 1)) = None).
Proof.
  split; [vm_compute; reflexivity|].
  apply (updateActivation_failure_leaves_agent example_world example_agent
           1 2%N).
  vm_compute. reflexivity.
Defined.

(** C1: the code keeps a recorded activation. On [example_agent_recorded]
    at [t = 1] for belief 1 every lookup of the update is defined
    ([timeDelta] 2, previous activation 1, [contextualise] 1, [observed]
    1.5), the call returns, and the activation at [(1, 1)] is the 5
    recorded before, not [2 * 1 + 1 * 1.5 = 3.5]. *)
Theorem updateActivation_recorded_not_replaced :
  timeDelta example_agent_recorded 1%N = Some 2
  ∧ activation example_agent_recorded 0 1%N = Some 1
  ∧ contextualise example_world example_agent_recorded 1%N 0 = Some 1
  ∧ observed example_world example_agent_recorded 1%N 0 = Some 1.5
  ∧ (updateActivation example_world 1 1%N example_agent_recorded).1 = Normal
  ∧ activation (updateActivation example_world 1 1%N example_agent_recorded).2
      1 1%N = Some 5
  ∧ (5 : double) ≠ 2 * 1 + 1 * 1.5.
Proof.
  repeat split; try (vm_compute; reflexivity). literals_differ.
Qed.

(** C2: the code keeps a recorded activation. [example_agent_updated]
    holds 3.5 at [(1, 1)]; after the time delta of belief 1 is set to 4 a
    second [updateActivation(1, belief 1)] computes 4 * 1 + 1 * 1.5 = 5.5,
    returns, and the activation at [(1, 1)] is still 3.5. *)
Theorem updateActivation_again_keeps_first :
  activation example_agent_retimed 1 1%N = Some 3.5
  ∧ (td ← timeDelta example_agent_retimed 1%N;
     act ← activation example_agent_retimed 0 1%N;
     co ← contextualObserved example_world example_agent_retimed 1%N 0;
     Some (td * act + co)) = Some 5.5
  ∧ (updateActivation example_world 1 1%N example_agent_retimed).1 = Normal
  ∧ activation (updateActivation example_world 1 1%N example_agent_retimed).2
      1 1%N = Some 3.5
  ∧ (3.5 : double) ≠ 5.5.
Proof.
  repeat split; try (vm_compute; reflexivity). literals_differ.
Qed.

(** * Utility *)

Section utility.
Variable W : World.
Implicit Types (a : Agent) (t : Z) (beh : N) (m : gmap N double).

Lemma contextualBehaviour_sum a beh t m (ctx perf : N → double) :
  activationMap a !! t = Some m →
  (∀ bel, is_Some (m !! bel) →
     performingBehaviourRelationship W bel beh = Some (perf bel)) →
  (∀ bel, is_Some (m !! bel) → contextualise W a bel t = Some (ctx bel)) →
  contextualBehaviour W a beh t = Some (contextual_sum ctx perf m).
Proof.
  intros Hm Hperf Hctx. unfold contextualBehaviour. rewrite Hm. simpl.
  apply (accumulate_total _ (λ c, ctx c.1 * (perf c.1 * c.2))).
  intros [bel act] Hin. apply elem_of_entries in Hin. simpl.
  unfold contextualBeliefBehaviour, beliefBehaviour.
  rewrite (Hctx bel) by (by exists act). simpl.
  rewrite (Hperf bel) by (by exists act). simpl.
  by rewrite (activation_lookup a t bel m Hm), Hin.
Qed.

(** A held belief whose [contextualise] throws makes [utility] throw. *)
Lemma utility_throws a beh t m bel :
  activationMap a !! t = Some m → is_Some (m !! bel) →
  contextualise W a bel t = None → utility W a beh t = None.
Proof.
  intros Hm [act Hact] Hnone. unfold utility, contextualBehaviour.
  rewrite Hm. simpl.
  rewrite (accumulate_None _ (entries m) (bel, act)); [done| |].
  - by apply elem_of_entries.
  - unfold contextualBeliefBehaviour. by rewrite Hnone.
Qed.

Lemma contextual_sum_not_neg_zero (ctx perf : N → double) m :
  contextual_sum ctx perf m ≠ neg_zero.
Proof.
  unfold contextual_sum.
  apply (foldl_add_not_neg_zero (λ c, ctx c.1 * (perf c.1 * c.2))).
  literals_differ.
Qed.

(** C4, amended: at a time [t] that has a sub-map [m] of held beliefs,
    each with a performing weight [perf(bel)] for [beh] and for each of
    which [contextualise(bel, t)] returns, with the value [ctx(bel)],
    [utility(beh, t)] is the sum over the held beliefs of
    [ctx(bel) * (perf(bel) * activation(t, bel))] plus
    [environment(beh, t)]; [environment] is 0, and the utility is that sum
    alone. *)
Theorem utility_is_contextual_sum a beh t m (ctx perf : N → double) :
  activationMap a !! t = Some m →
  (∀ bel, is_Some (m !! bel) →
     performingBehaviourRelationship W bel beh = Some (perf bel)) →
  (∀ bel, is_Some (m !! bel) → contextualise W a bel t = Some (ctx bel)) →
  utility W a beh t
  = Some (contextual_sum ctx perf m + environment a beh t)
  ∧ environment a beh t = 0
  ∧ utility W a beh t = Some (contextual_sum ctx perf m).
Proof.
  intros Hm Hperf Hctx.
  assert (utility W a beh t
          = Some (contextual_sum ctx perf m + environment a beh t)) as Hut.
  { unfold utility.
    by rewrite (contextualBehaviour_sum a beh t m ctx perf Hm Hperf Hctx). }
  split; [done|]. split; [done|]. rewrite Hut. unfold environment.
  by rewrite double_add_zero by apply contextual_sum_not_neg_zero.
Qed.



End utility.

Lemma utility_is_contextual_sum_witness :
  utility example_world example_agent 5%N 0
  = Some (contextual_sum (λ _, 1) (λ _, 1) {[ 1%N := 1 ]}
          + environment example_agent 5%N 0)
  ∧ environment example_agent 5%N 0 = 0
  ∧ utility example_world example_agent 5%N 0
    = Some (contextual_sum (λ _, 1) (λ _, 1) {[ 1%N := 1 ]}).
Proof.
  apply (utility_is_contextual_sum example_world example_agent 5%N 0
           {[ 1%N := 1 ]} (λ _, 1) (λ _, 1)).
  - vm_compute. reflexivity.
  - intros bel [v [<- _]%lookup_singleton_Some]. vm_compute. reflexivity.
  - intros bel [v [<- _]%lookup_singleton_Some]. vm_compute. reflexivity.
Defined.

(** At time 0 [example_agent] gives behaviour 5 the utility 1 and
    behaviour 6 the utility -1. *)
Example utility_example :
  utility example_world example_agent 5%N 0 = Some 1
  ∧ utility example_world example_agent 6%N 0 = Some (-1).
Proof. vm_compute. done. Qed.

(** C4, as stated, fails on [example_agent_unrelated] at time 0 for
    behaviour 5: the time has its sub-map, the beliefs held are 1 and 3,
    and each has the performing weight 1 for behaviour 5; but belief 1 has
    no belief-relationship weight for belief 3, so [contextualise(1, 0)]
    throws and [utility(5, 0)] throws with it: it is no sum. *)
Lemma utility_is_contextual_sum_counterexample :
  activationMap example_agent_unrelated !! 0%Z
  = Some {[ 1%N := 1; 3%N := 1 ]}
  ∧ heldBeliefs example_agent_unrelated 0 = Some [1%N; 3%N]
  ∧ performingBehaviourRelationship example_world 1%N 5%N = Some 1
  ∧ performingBehaviourRelationship example_world 3%N 5%N = Some 1
  ∧ beliefRelationship example_world 1%N 3%N = None
  ∧ contextualise example_world example_agent_unrelated 1%N 0 = None
  ∧ utility example_world example_agent_unrelated 5%N 0 = None
  ∧ (∀ ctx perf,
       utility example_world example_agent_unrelated 5%N 0
       ≠ Some (contextual_sum ctx perf {[ 1%N := 1; 3%N := 1 ]}
               + environment example_agent_unrelated 5%N 0)).
Proof.
  assert (utility example_world example_agent_unrelated 5%N 0 = None) as Hut
    by (vm_compute; reflexivity).
  repeat split; try (vm_compute; reflexivity).
  intros ctx perf. rewrite Hut. discriminate.
Qed.


Example contextualise_example :
  contextualise example_world example_agent_idle 1%N 0 = Some 1.
Proof. vm_compute. reflexivity. Qed.


(** * Behaviour selection *)


Section selection.
Variable W : World.
Implicit Types (a : Agent) (t : Z) (s : scan) (cs pre : list (N * double)).

Lemma scan_step_maxUtility s b u :
  maxUtility (scan_step s b u) = if maxUtility s <? u then u else maxUtility s.
Proof. unfold scan_step. by destruct (maxUtility s <? u), (0 <? u). Qed.

Lemma scan_step_maxBehaviour s b u :
  maxBehaviour (scan_step s b u)
  = if maxUtility s <? u then b else maxBehaviour s.
Proof. unfold scan_step. by destruct (maxUtility s <? u), (0 <? u). Qed.

Lemma scan_step_positiveUtilities s b u :
  positiveUtilities (scan_step s b u)
  = positiveUtilities s ++ (if 0 <? u then [u] else []).
Proof.
  unfold scan_step.
  destruct (maxUtility s <? u), (0 <? u); simpl; by rewrite ?app_nil_r.
Qed.

(** With every utility defined, the loop of [perform] is the left fold of
    its body over the candidates. *)
Lemma scan_loop_fold a t cs s :
  (∀ c, c ∈ cs → utility W a c.1 t = Some c.2) →
  scan_loop W a t (cs.*1) s = Some (foldl (λ s c, scan_step s c.1 c.2) s cs).
Proof.
  revert s. induction cs as [|[b u] cs IH]; intros s Hut; simpl; [done|].
  assert (utility W a b t = Some u) as -> by (apply (Hut (b, u)); by left).
  simpl. apply IH. intros c Hc. apply Hut. by right.
Qed.


Lemma scan_fold_positive_count cs s :
  length (positiveUtilities (foldl (λ s c, scan_step s c.1 c.2) s cs))
  = (length (positiveUtilities s)
     + length (filter (λ c, (0 <? c.2)%float = true) cs))%nat.
Proof.
  revert s. induction cs as [|[b u] cs IH]; intros s; simpl; [lia|].
  rewrite IH, scan_step_positiveUtilities, length_app, filter_cons. simpl.
  destruct (0 <? u); case_decide; try done; simpl; lia.
Qed.

Lemma tracks_maximum_init : tracks_maximum [] scan_init.
Proof. left. repeat split; try done. by intros c ?%elem_of_nil. Qed.

(** One pass of the loop body keeps [tracks_maximum]. *)
Lemma tracks_maximum_step pre s b u :
  tracks_maximum pre s → tracks_maximum (pre ++ [(b, u)]) (scan_step s b u).
Proof.
  intros Htr. unfold tracks_maximum.
  rewrite scan_step_maxUtility, scan_step_maxBehaviour.
  destruct (maxUtility s <? u) eqn:Hlt.
  - (* the candidate becomes the maximum *)
    right.
    assert ((lowest <? u) = true) as Hlow.
    { destruct Htr as [(_ & Hmax & _)|(Hlow & _)]; [by rewrite <- Hmax|].
      by apply double_ltb_trans with (maxUtility s). }
    assert (∀ j c, pre !! j = Some c → (maxUtility s <? c.2) = false)
      as Habove.
    { intros j c Hj.
      destruct Htr as [(_ & Hmax & Hnone)|(_ & i & _ & _ & Hall & _)].
      - rewrite Hmax. apply Hnone. apply list_elem_of_lookup. by exists j.
      - by apply (Hall j). }
    split; [done|]. exists (length pre). split; [|split; [|split]].
    + apply lookup_snoc_Some. by right.
    + by apply double_ltb_not_nan with lowest.
    + intros j c [[_ Hj]|[_ <-]]%lookup_snoc_Some; [|apply double_ltb_irrefl].
      simpl. destruct (u <? c.2) eqn:Huc; [|done].
      rewrite <- (Habove j c Hj). symmetry. by apply double_ltb_trans with u.
    + intros j c Hji Hj. rewrite lookup_app_l in Hj by done.
      destruct (u <=? c.2) eqn:Huc; [|done].
      rewrite <- (Habove j c Hj). symmetry.
      by apply double_ltb_leb_trans with u.
  - (* the maximum stays *)
    destruct Htr
      as [(Hb & Hmax & Hnone)|(Hlow & i & Hi & Hnan & Hall & Hbefore)].
    + left. repeat split; try done.
      intros c [Hc| ->%list_elem_of_singleton]%elem_of_app; [by apply Hnone|].
      simpl. by rewrite <- Hmax.
    + right. split; [done|]. exists i. split; [|split; [done|split]].
      * apply lookup_app_l_Some. done.
      * intros j c [[_ Hj]|[_ <-]]%lookup_snoc_Some; [by apply (Hall j)|done].
      * intros j c Hji Hj. apply (Hbefore j c Hji).
        apply lookup_lt_Some in Hi.
        rewrite lookup_app_l in Hj by lia. done.
Qed.

Lemma tracks_maximum_fold cs pre s :
  tracks_maximum pre s →
  tracks_maximum (pre ++ cs) (foldl (λ s c, scan_step s c.1 c.2) s cs).
Proof.
  revert pre s. induction cs as [|[b u] cs IH]; intros pre s Htr; simpl.
  - by rewrite app_nil_r.
  - rewrite (cons_middle (b, u) pre cs), app_assoc.
    apply IH. by apply tracks_maximum_step.
Qed.

Lemma performed_record_performed a t b :
  performed (record_performed t b a) t = Some b.
Proof.
  unfold performed, record_performed, insert_or_assign. simpl.
  apply lookup_insert_eq.
Qed.


(** A utility above 0 is above [lowest]. *)
Lemma no_positive_below_lowest cs :
  (∀ c, c ∈ cs → (lowest <? c.2) = false) →
  length (filter (λ c : N * double, (0 <? c.2) = true) cs) = 0%nat.
Proof.
  induction cs as [|c cs IH]; intros Hlow; [done|].
  rewrite filter_cons. case_decide as Hpos.
  - assert ((lowest <? c.2) = true) as Habove
      by (by apply double_ltb_trans with 0).
    rewrite Hlow in Habove by (by left). discriminate.
  - apply IH. intros c' Hc'. apply Hlow. by right.
Qed.

(** When no candidate has a utility above [lowest], [perform] records the
    null behaviour. *)
Lemma perform_without_maximum a t cs :
  (∀ c, c ∈ cs → utility W a c.1 t = Some c.2) →
  (∀ c, c ∈ cs → (lowest <? c.2) = false) →
  perform W t (cs.*1) a = Det (Normal, record_performed t nullptr a).
Proof.
  intros Hut Hlow.
  pose proof (tracks_maximum_fold cs [] scan_init tracks_maximum_init) as Htr.
  simpl in Htr.
  pose proof (scan_fold_positive_count cs scan_init) as Hcount. simpl in Hcount.
  rewrite (no_positive_below_lowest cs Hlow) in Hcount.
  unfold perform. rewrite (scan_loop_fold a t cs scan_init Hut), Hcount. simpl.
  destruct Htr as [(-> & _ & _)|(Habove & i & Hi & _)]; [done|].
  apply list_elem_of_lookup_2 in Hi. apply Hlow in Hi. simpl in Hi.
  rewrite Hi in Habove. discriminate.
Qed.

(** C7, amended: with no candidate, [perform(t, {})] does not fail: it
    returns without drawing from the random engine and records the null
    behaviour as [performed[t]]. *)
Theorem perform_no_candidate_records_nullptr a t :
  perform W t [] a = Det (Normal, record_performed t nullptr a)
  ∧ performed (record_performed t nullptr a) t = Some nullptr.
Proof. split; [done|]. apply performed_record_performed. Qed.

(** C10: when a behaviour is already recorded at [t], [_addPerformed(t, b)]
    leaves [b] as [performed(t)]; and a [perform(t, bs)] whose utilities
    are all defined returns, and [performed(t)] is then the behaviour it
    chose: [maxBehaviour] with at most one positive utility, and
    [positiveBehaviours[i]] for the index [i] drawn otherwise. *)
Theorem performed_record_is_replaced a t (old : N) :
  performed a t = Some old →
  (∀ b, performed (_addPerformed t b a) t = Some b)
  ∧ (∀ bs s, scan_loop W a t bs scan_init = Some s →
       (length (positiveUtilities s) ≤ 1 →
          ∃ a', perform W t bs a = Det (Normal, a')
                ∧ performed a' t = Some (maxBehaviour s))
       ∧ (1 < length (positiveUtilities s) →
          ∃ k, perform W t bs a = Rand (positiveUtilities s) k
               ∧ ∀ i, (k i).1 = Normal
                      ∧ performed (k i).2 t
                        = Some (nth i (positiveBehaviours s) nullptr))).
Proof.
  intros _. split; [intros b; apply performed_record_performed|].
  intros bs s Hs. unfold perform. rewrite Hs. split.
  - intros Hle. rewrite (proj2 (Nat.leb_le _ 1) Hle). eexists. split; [done|].
    apply performed_record_performed.
  - intros Hlt. rewrite (proj2 (Nat.leb_gt _ 1) Hlt). eexists. split; [done|].
    intros i. split; [done|]. apply performed_record_performed.
Qed.

End selection.


Example perform_example :
  perform example_world 0 [6%N; 5%N] example_agent
  = Det (Normal, record_performed 0 5%N example_agent).
Proof. vm_compute. reflexivity. Qed.

(** With the utilities 3 and 1, [perform] draws with these weights and
    records the behaviour at the index drawn. *)
Example perform_draws_example :
  utility example_world_keen example_agent 5%N 0 = Some 3
  ∧ utility example_world_keen example_agent 6%N 0 = Some 1
  ∧ perform example_world_keen 0 [5%N; 6%N] example_agent
    = Rand [3; 1]
        (λ i, (Normal,
               record_performed 0 (nth i [5%N; 6%N] nullptr) example_agent)).
Proof. vm_compute. done. Qed.


(** C7, as stated, fails on [example_agent]: [perform(1, {})] ends
    normally, having recorded the null behaviour at time 1. *)
Lemma perform_no_candidate_counterexample :
  perform example_world 1 [] example_agent
  = Det (Normal, record_performed 1 nullptr example_agent)
  ∧ Normal ≠ OutOfRange
  ∧ performed (record_performed 1 nullptr example_agent) 1 = Some nullptr.
Proof.
  split; [vm_compute; reflexivity|]. split; [discriminate|].
  vm_compute. reflexivity.
Qed.

Lemma performed_record_is_replaced_witness :
  (∀ b, performed (_addPerformed 0 b (_addPerformed 0 6%N example_agent)) 0
        = Some b)
  ∧ (∀ bs s,
       scan_loop example_world (_addPerformed 0 6%N example_agent) 0 bs
         scan_init = Some s →
       (length (positiveUtilities s) ≤ 1 →
          ∃ a', perform example_world 0 bs (_addPerformed 0 6%N example_agent)
                = Det (Normal, a')
                ∧ performed a' 0 = Some (maxBehaviour s))
       ∧ (1 < length (positiveUtilities s) →
          ∃ k, perform example_world 0 bs (_addPerformed 0 6%N example_agent)
               = Rand (positiveUtilities s) k
               ∧ ∀ i, (k i).1 = Normal
                      ∧ performed (k i).2 0
                        = Some (nth i (positiveBehaviours s) nullptr))).
Proof.
  apply (performed_record_is_replaced example_world
           (_addPerformed 0 6%N example_agent) 0 6%N).
  vm_compute. reflexivity.
Defined.

(** Behaviour 6 is recorded at time 0; [perform] then records 5. *)
Example performed_replaced_example :
  performed (_addPerformed 0 6%N example_agent) 0 = Some 6%N
  ∧ perform example_world 0 [6%N; 5%N] (_addPerformed 0 6%N example_agent)
    = Det (Normal, _addPerformed 0 5%N example_agent)
  ∧ performed (_addPerformed 0 5%N example_agent) 0 = Some 5%N.
Proof. vm_compute. done. Qed.

(** * The tick *)

Section tick.
Variable W : World.
Implicit Types (a : Agent) (t : Z) (b : N) (bels : list N).

Lemma updateActivation_performedMap a t b :
  performedMap (updateActivation W t b a).2 = performedMap a.
Proof. unfold updateActivation. by destruct (td ← timeDelta a b; _). Qed.

Lemma update_all_performedMap bels a t :
  performedMap (update_all W t bels a).2 = performedMap a.
Proof.
  revert a. induction bels as [|b bels IH]; intros a; simpl; [done|].
  pose proof (updateActivation_performedMap a t b) as Hb.
  destruct (updateActivation W t b a) as [[|] a1]; simpl in *.
  - by rewrite IH.
  - done.
Qed.

(** The loop is the sequence of its calls: it goes on after a call that
    returns, with the agent that call left. *)
Lemma update_all_app pre post a t :
  update_all W t (pre ++ post) a
  = match update_all W t pre a with
    | (Normal, a1) => update_all W t post a1
    | (OutOfRange, a1) => (OutOfRange, a1)
    end.
Proof.
  revert a. induction pre as [|b pre IH]; intros a; simpl; [done|].
  destruct (updateActivation W t b a) as [[|] a1]; [apply IH|done].
Qed.

(** When the loop ends normally, every one of its calls has returned. *)
Lemma update_all_returns bels a t a' :
  update_all W t bels a = (Normal, a') →
  a' = foldl (λ x b, (updateActivation W t b x).2) a bels
  ∧ ∀ pre b post, bels = pre ++ b :: post →
      (updateActivation W t b
         (foldl (λ x b, (updateActivation W t b x).2) a pre)).1 = Normal.
Proof.
  revert a. induction bels as [|b bels IH]; intros a; simpl.
  - intros [= <-]. split; [done|]. by intros [|] ? ? ?.
  - destruct (updateActivation W t b a) as [[|] a1] eqn:Hb; [|discriminate].
    intros Hall. destruct (IH a1 Hall) as [-> Hcalls]. simpl. split; [done|].
    intros [|b' pre] b'' post; simpl.
    + intros [= <- _]. by rewrite Hb.
    + intros [= <- ->]. rewrite Hb. simpl. by apply (Hcalls pre b'' post).
Qed.

(** When every call of the loop returns on the agent the calls before it
    have left, the loop ends normally with the agent the last call left. *)
Lemma update_all_of_calls bels a t :
  (∀ pre b post, bels = pre ++ b :: post →
     (updateActivation W t b
        (foldl (λ x b, (updateActivation W t b x).2) a pre)).1 = Normal) →
  update_all W t bels a
  = (Normal, foldl (λ x b, (updateActivation W t b x).2) a bels).
Proof.
  revert a. induction bels as [|b bels IH]; intros a Hcalls; simpl; [done|].
  pose proof (Hcalls [] b bels eq_refl) as Hb. simpl in Hb.
  destruct (updateActivation W t b a) as [[|] a1] eqn:Heq;
    simpl in Hb; [|discriminate].
  simpl. apply IH. intros pre b' post ->.
  pose proof (Hcalls (b :: pre) b' post eq_refl) as Hb'. simpl in Hb'.
  by rewrite Heq in Hb'.
Qed.

(** Either every call of the loop returns, or there is a first one that
    throws. *)
Lemma update_calls_cases bels a t :
  (∀ pre b post, bels = pre ++ b :: post →
     (updateActivation W t b
        (foldl (λ x b, (updateActivation W t b x).2) a pre)).1 = Normal)
  ∨ (∃ pre b post, bels = pre ++ b :: post
       ∧ (∀ pre' b' post', pre = pre' ++ b' :: post' →
            (updateActivation W t b'
               (foldl (λ x b, (updateActivation W t b x).2) a pre')).1
            = Normal)
       ∧ (updateActivation W t b
            (foldl (λ x b, (updateActivation W t b x).2) a pre)).1
         = OutOfRange).
Proof.
  revert a. induction bels as [|b bels IH]; intros a.
  { left. by intros [|] ? ? ?. }
  destruct (updateActivation W t b a) as [[|] a1] eqn:Heq.
  - assert (∀ pre b0, (updateActivation W t b0
              (foldl (λ x b, (updateActivation W t b x).2) a (b :: pre))).1
            = (updateActivation W t b0
                 (foldl (λ x b, (updateActivation W t b x).2) a1 pre)).1)
      as Hshift by (intros pre b0; simpl; by rewrite Heq).
    destruct (IH a1) as [Hall|(pre & b' & post & -> & Hpre & Hb')].
    + left. intros [|b0 pre] b' post; simpl.
      * intros [= <- _]. by rewrite Heq.
      * intros [= <- ->]. rewrite Heq. simpl. by apply (Hall pre b' post).
    + right. exists (b :: pre), b', post. split; [done|]. split.
      * intros [|b0 pre'] b'' post'; simpl.
        -- intros [= <- _]. by rewrite Heq.
        -- intros [= <- ->]. rewrite Heq. simpl.
           by apply (Hpre pre' b'' post').
      * by rewrite Hshift.
  - right. exists [], b, bels. split; [done|]. split.
    + by intros [|] ? ? ?.
    + simpl. by rewrite Heq.
Qed.

(** C8: [tick(t, behs, bels)] calls [updateActivation(t, b)] for the
    beliefs of [bels] in turn, each on the agent the calls before it have
    left. When every one of these calls returns, [tick] goes on to
    [perform(t, behs)] on the agent they have left, and ends as it ends.
    When one of them throws, those before it having returned, [tick] ends
    there by throwing: it does not perform and draws nothing, and the
    performed record is the one from before the tick. One of the two
    always is the case. *)
Theorem tick_updates_then_performs t behs bels a :
  ((∀ pre b post, bels = pre ++ b :: post →
      (updateActivation W t b
         (foldl (λ x b, (updateActivation W t b x).2) a pre)).1 = Normal) →
   tick W t behs bels a
   = perform W t behs (foldl (λ x b, (updateActivation W t b x).2) a bels))
  ∧ (∀ pre b post,
       bels = pre ++ b :: post →
       (∀ pre' b' post', pre = pre' ++ b' :: post' →
          (updateActivation W t b'
             (foldl (λ x b, (updateActivation W t b x).2) a pre')).1
          = Normal) →
       (updateActivation W t b
          (foldl (λ x b, (updateActivation W t b x).2) a pre)).1
       = OutOfRange →
       tick W t behs bels a
       = Det (OutOfRange, foldl (λ x b, (updateActivation W t b x).2) a pre)
       ∧ performedMap (foldl (λ x b, (updateActivation W t b x).2) a pre)
         = performedMap a
       ∧ performed (foldl (λ x b, (updateActivation W t b x).2) a pre) t
         = performed a t)
  ∧ ((∀ pre b post, bels = pre ++ b :: post →
        (updateActivation W t b
           (foldl (λ x b, (updateActivation W t b x).2) a pre)).1 = Normal)
     ∨ (∃ pre b post, bels = pre ++ b :: post
          ∧ (∀ pre' b' post', pre = pre' ++ b' :: post' →
               (updateActivation W t b'
                  (foldl (λ x b, (updateActivation W t b x).2) a pre')).1
               = Normal)
          ∧ (updateActivation W t b
               (foldl (λ x b, (updateActivation W t b x).2) a pre)).1
            = OutOfRange)).
Proof.
  split; [|split; [|apply update_calls_cases]].
  - intros Hcalls. unfold tick. by rewrite (update_all_of_calls bels a t Hcalls).
  - intros pre b post -> Hcalls Hb.
    pose proof (update_all_of_calls pre a t Hcalls) as Hpre.
    set (a1 := foldl (λ x b, (updateActivation W t b x).2) a pre) in *.
    assert (performedMap a1 = performedMap a) as Hpm.
    { pose proof (update_all_performedMap pre a t) as Hp.
      by rewrite Hpre in Hp. }
    split; [|split; [done|by unfold performed; rewrite Hpm]].
    unfold tick. rewrite update_all_app, Hpre. simpl.
    pose proof (updateActivation_throws W a1 t b Hb) as [Ha1 _].
    destruct (updateActivation W t b a1) as [[|] a2]; simpl in *;
      [discriminate|by subst].
Qed.

End tick.

(** With the one belief 1, whose update returns, the tick of
    [example_agent] at time 1 goes on to [perform]; with the beliefs 1 and
    2 it throws at the update of belief 2. *)
Lemma tick_updates_then_performs_witness :
  tick example_world 1 [5%N; 6%N] [1%N] example_agent
  = perform example_world 1 [5%N; 6%N]
      (foldl (λ x b, (updateActivation example_world 1 b x).2)
         example_agent [1%N])
  ∧ tick example_world 1 [5%N; 6%N] [1%N; 2%N] example_agent
    = Det (OutOfRange,
           foldl (λ x b, (updateActivation example_world 1 b x).2)
             example_agent [1%N])
  ∧ performed
      (foldl (λ x b, (updateActivation example_world 1 b x).2)
         example_agent [1%N]) 1
    = performed example_agent 1.
Proof.
  assert (∀ pre b post, [1%N] = pre ++ b :: post →
            (updateActivation example_world 1 b
               (foldl (λ x b, (updateActivation example_world 1 b x).2)
                  example_agent pre)).1 = Normal) as Hone.
  { intros [|b0 [|b1 pre]] b post Heq; simplify_eq/=.
    vm_compute. reflexivity. }
  split.
  - apply (proj1 (tick_updates_then_performs example_world 1 [5%N; 6%N]
                    [1%N] example_agent) Hone).
  - destruct (proj1 (proj2 (tick_updates_then_performs example_world 1
                              [5%N; 6%N] [1%N; 2%N] example_agent))
                [1%N] 2%N [] eq_refl Hone) as (Htick & _ & Hperf).
    + vm_compute. reflexivity.
    + by split.
Defined.

(** On [example_agent] at time 1, the update of belief 1 returns and the
    update of belief 2 throws: the tick throws, leaving the agent as the
    first update left it, with nothing performed at time 1. With belief 1
    alone, the tick goes on to [perform], which records behaviour 5. *)
Example tick_example :
  update_all example_world 1 [1%N] example_agent
  = (Normal, example_agent_updated)
  ∧ (updateActivation example_world 1 2%N example_agent_updated).1 = OutOfRange
  ∧ tick example_world 1 [5%N; 6%N] [1%N; 2%N] example_agent
    = Det (OutOfRange, example_agent_updated)
  ∧ performed example_agent_updated 1 = None
  ∧ tick example_world 1 [5%N; 6%N] [1%N] example_agent
    = Det (Normal, record_performed 1 5%N example_agent_updated).
Proof. vm_compute. done. Qed.

(** * Further properties of the activation update *)

Section activation_update_more.
Variable W : World.
Implicit Types (a : Agent) (t : Z) (b : N) (am : gmap Z (gmap N double)).

Lemma updateActivation_unfold a t b :
  updateActivation W t b a
  = match new_activation W a t b with
    | None => (OutOfRange, a)
    | Some v =>
        (Normal, set_activationMap (store_activation t b v (activationMap a)) a)
    end.
Proof. reflexivity. Qed.

Lemma updateActivation_Normal a t b :
  (updateActivation W t b a).1 = Normal ↔ is_Some (new_activation W a t b).
Proof.
  rewrite updateActivation_unfold.
  destruct (new_activation W a t b) as [v|]; simpl.
  - split; [by eexists|done].
  - split; [done|by intros [? ?]].
Qed.

(** The sub-map of [t] after the store, and the other sub-maps. *)
Lemma store_activation_at t b v am :
  store_activation t b v am !! t = Some (emplace b v (default ∅ (am !! t))).
Proof.
  destruct (am !! t) as [mt|] eqn:Ht; simpl.
  - by rewrite (store_activation_known_time t b v am mt Ht), lookup_insert_eq.
  - rewrite (store_activation_fresh_time t b v am Ht), lookup_insert_eq.
    by rewrite (emplace_fresh b v ∅) by apply lookup_empty.
Qed.

Lemma store_activation_at_other t b v am t' :
  t' ≠ t → store_activation t b v am !! t' = am !! t'.
Proof.
  intros Hne. destruct (am !! t) as [mt|] eqn:Ht.
  - rewrite (store_activation_known_time t b v am mt Ht).
    by apply lookup_insert_ne.
  - rewrite (store_activation_fresh_time t b v am Ht).
    by apply lookup_insert_ne.
Qed.

(** Storing over a recorded activation changes nothing. *)
Lemma store_activation_recorded t b v am :
  is_Some (am !! t ≫= (.!! b)) → store_activation t b v am = am.
Proof.
  intros [old Hold]. destruct (am !! t) as [mt|] eqn:Ht; [|done].
  simpl in Hold. rewrite (store_activation_known_time t b v am mt Ht).
  rewrite (emplace_present b v old mt Hold). by apply insert_id.
Qed.

Lemma emplace_comm `{Countable K} {V : Type} (k1 k2 : K) (v1 v2 : V)
    (m : gmap K V) :
  k1 ≠ k2 → emplace k1 v1 (emplace k2 v2 m) = emplace k2 v2 (emplace k1 v1 m).
Proof.
  intros Hne. apply map_eq. intros k.
  destruct (decide (k = k1)) as [->|Hk1].
  - rewrite emplace_lookup, (emplace_lookup_ne k2 k1) by done.
    by rewrite (emplace_lookup_ne k2 k1), emplace_lookup by done.
  - destruct (decide (k = k2)) as [->|Hk2].
    + rewrite (emplace_lookup_ne k1 k2), !emplace_lookup by done.
      by rewrite (emplace_lookup_ne k1 k2) by done.
    + by rewrite !emplace_lookup_ne by done.
Qed.

Lemma store_activation_comm t b1 b2 v1 v2 am :
  b1 ≠ b2 →
  store_activation t b1 v1 (store_activation t b2 v2 am)
  = store_activation t b2 v2 (store_activation t b1 v1 am).
Proof.
  intros Hne. apply map_eq. intros t'.
  destruct (decide (t' = t)) as [->|Ht'].
  - rewrite !store_activation_at. simpl. f_equal. by apply emplace_comm.
  - by rewrite !store_activation_at_other by done.
Qed.

Lemma set_activationMap_id a : set_activationMap (activationMap a) a = a.
Proof. by destruct a. Qed.

(** What [newActivation] is computed from: the time deltas, the friends
    and the sub-map of the previous time. *)
Lemma new_activation_inputs a a' t b :
  activationMap a' !! to_sim_time W (t - 1)
  = activationMap a !! to_sim_time W (t - 1) →
  friends a' = friends a → timeDeltaMap a' = timeDeltaMap a →
  new_activation W a' t b = new_activation W a t b.
Proof.
  intros Ham Hfr Htd.
  unfold new_activation, timeDelta, contextualObserved, contextualise,
    heldBeliefs, observed, activation.
  by rewrite Ham, Hfr, Htd.
Qed.

Lemma updateActivation_other_times a t b t' :
  t' ≠ t →
  activationMap (updateActivation W t b a).2 !! t' = activationMap a !! t'.
Proof.
  intros Hne. rewrite updateActivation_unfold.
  destruct (new_activation W a t b) as [v|]; simpl; [|done].
  by apply store_activation_at_other.
Qed.

Lemma updateActivation_friends a t b :
  friends (updateActivation W t b a).2 = friends a.
Proof.
  rewrite updateActivation_unfold.
  by destruct (new_activation W a t b).
Qed.

Lemma updateActivation_timeDeltaMap a t b :
  timeDeltaMap (updateActivation W t b a).2 = timeDeltaMap a.
Proof.
  rewrite updateActivation_unfold.
  by destruct (new_activation W a t b).
Qed.

(** A call leaves what [newActivation] is computed from, [t - 1] being
    another time than [t]. *)
Lemma new_activation_after_update a t b b' :
  to_sim_time W (t - 1) ≠ t →
  new_activation W (updateActivation W t b' a).2 t b = new_activation W a t b.
Proof.
  intros Hne. apply new_activation_inputs.
  - by apply updateActivation_other_times.
  - apply updateActivation_friends.
  - apply updateActivation_timeDeltaMap.
Qed.

(** X1: whether it returns or throws, [updateActivation(t, b)] changes
    nothing of the agent but the activation at [(t, b)]: every other
    activation, every sub-map of another time, the performed record, the
    friends, the time deltas and the identifier are as before. *)
Theorem updateActivation_frame a t b :
  (∀ t' b', (t', b') ≠ (t, b) →
     activation (updateActivation W t b a).2 t' b' = activation a t' b')
  ∧ (∀ t', t' ≠ t →
       activationMap (updateActivation W t b a).2 !! t' = activationMap a !! t')
  ∧ performedMap (updateActivation W t b a).2 = performedMap a
  ∧ friends (updateActivation W t b a).2 = friends a
  ∧ timeDeltaMap (updateActivation W t b a).2 = timeDeltaMap a
  ∧ uuid (updateActivation W t b a).2 = uuid a.
Proof.
  split; [|split; [|split; [|split; [|split]]]].
  - intros t' b' Hne. rewrite updateActivation_unfold.
    destruct (new_activation W a t b) as [v|]; simpl; [|done].
    unfold activation. simpl. by apply store_activation_other.
  - intros t' Hne. by apply updateActivation_other_times.
  - rewrite updateActivation_unfold. by destruct (new_activation W a t b).
  - apply updateActivation_friends.
  - apply updateActivation_timeDeltaMap.
  - rewrite updateActivation_unfold. by destruct (new_activation W a t b).
Qed.

(** X2: when the time [t] has no sub-map yet, a call of
    [updateActivation(t, b)] that returns creates it with the one entry
    for [b]: the beliefs held at [t] are then exactly [b], with the newly
    computed activation. *)
Theorem updateActivation_creates_submap a t b :
  activationMap a !! t = None →
  (updateActivation W t b a).1 = Normal →
  ∃ v, new_activation W a t b = Some v
       ∧ activationMap (updateActivation W t b a).2 !! t = Some {[ b := v ]}
       ∧ heldBeliefs (updateActivation W t b a).2 t = Some [b]
       ∧ activation (updateActivation W t b a).2 t b = Some v.
Proof.
  intros Ht [v Hv]%updateActivation_Normal. exists v. split; [done|].
  rewrite updateActivation_unfold, Hv. simpl.
  rewrite (store_activation_fresh_time t b v _ Ht).
  unfold heldBeliefs, activation. simpl. rewrite lookup_insert_eq. simpl.
  split; [done|]. split; [|apply lookup_singleton_eq].
  unfold entries. by rewrite map_to_list_singleton.
Qed.

(** With an activation recorded at [(t, b)], the call changes nothing. *)
Lemma updateActivation_recorded_noop a t b :
  is_Some (activation a t b) → (updateActivation W t b a).2 = a.
Proof.
  intros Hrec. rewrite updateActivation_unfold.
  destruct (new_activation W a t b) as [v|]; simpl; [|done].
  rewrite (store_activation_recorded t b v _ Hrec).
  apply set_activationMap_id.
Qed.

Lemma updateActivation_is_Some_after a t b :
  (updateActivation W t b a).1 = Normal →
  is_Some (activation (updateActivation W t b a).2 t b).
Proof.
  intros [v Hv]%updateActivation_Normal.
  destruct (updateActivation_returns W a t b v Hv) as (_ & Hval & _).
  rewrite Hval. by eexists.
Qed.

(** X3: a call of [updateActivation(t, b)] that has returned is not undone
    or redone by calling it again: the second call leaves the agent as the
    first left it and, [t - 1] being another time than [t], it returns. *)
Theorem updateActivation_idempotent a t b :
  (updateActivation W t b a).1 = Normal →
  (updateActivation W t b (updateActivation W t b a).2).2
  = (updateActivation W t b a).2
  ∧ (to_sim_time W (t - 1) ≠ t →
     (updateActivation W t b (updateActivation W t b a).2).1 = Normal).
Proof.
  intros Hret. split.
  - apply updateActivation_recorded_noop.
    by apply updateActivation_is_Some_after.
  - intros Hne. apply updateActivation_Normal.
    rewrite (new_activation_after_update a t b b Hne).
    by apply updateActivation_Normal.
Qed.

End activation_update_more.

(** * Further properties of the update phase of a tick *)

Section update_phase.
Variable W : World.
Implicit Types (a : Agent) (t : Z) (b : N) (bels : list N).

Lemma updateActivation_result a t b v :
  new_activation W a t b = Some v →
  updateActivation W t b a
  = (Normal, set_activationMap (store_activation t b v (activationMap a)) a).
Proof. intros Hv. by rewrite updateActivation_unfold, Hv. Qed.

Lemma update_all_cons_Normal a t b bels a' :
  update_all W t (b :: bels) a = (Normal, a')
  ↔ (updateActivation W t b a).1 = Normal
    ∧ update_all W t bels (updateActivation W t b a).2 = (Normal, a').
Proof.
  simpl. destruct (updateActivation W t b a) as [[|] a1]; simpl.
  - split; [done|by intros [_ ?]].
  - split; [done|by intros [? _]].
Qed.

(** Two updates at the same time for two beliefs can be exchanged. *)
Lemma update_all_swap a t b1 b2 a' :
  to_sim_time W (t - 1) ≠ t →
  update_all W t [b1; b2] a = (Normal, a') →
  update_all W t [b2; b1] a = (Normal, a').
Proof.
  intros Hne [H1 H2]%update_all_cons_Normal.
  apply update_all_cons_Normal in H2 as [H2 Ha'].
  simpl in Ha'. injection Ha' as <-.
  apply updateActivation_Normal in H1 as [v1 Hv1].
  apply updateActivation_Normal in H2 as [v2 Hv2].
  rewrite (new_activation_after_update W a t b2 b1 Hne) in Hv2.
  assert (new_activation W (updateActivation W t b2 a).2 t b1 = Some v1)
    as Hv1' by (by rewrite (new_activation_after_update W a t b1 b2 Hne)).
  assert (new_activation W (updateActivation W t b1 a).2 t b2 = Some v2)
    as Hv2' by (by rewrite (new_activation_after_update W a t b2 b1 Hne)).
  apply update_all_cons_Normal. split; [apply updateActivation_Normal; eauto|].
  apply update_all_cons_Normal. split; [apply updateActivation_Normal; eauto|].
  simpl. f_equal.
  rewrite (updateActivation_result _ t b1 v1 Hv1').
  rewrite (updateActivation_result _ t b2 v2 Hv2').
  rewrite (updateActivation_result a t b1 v1 Hv1).
  rewrite (updateActivation_result a t b2 v2 Hv2). simpl.
  unfold set_activationMap. simpl. f_equal.
  destruct (decide (b1 = b2)) as [->|Hb].
  - assert (v1 = v2) as -> by congruence. done.
  - by apply store_activation_comm.
Qed.

(** X4: the order of the beliefs does not matter to the update phase of a
    tick, [t - 1] being another time than [t]: when the calls of
    [updateActivation(t, b)] for the beliefs of one list all return, they
    all return for any rearrangement of the list and leave the same
    agent. *)
Theorem update_all_permutation t bels bels' a a' :
  to_sim_time W (t - 1) ≠ t →
  bels ≡ₚ bels' →
  update_all W t bels a = (Normal, a') →
  update_all W t bels' a = (Normal, a').
Proof.
  intros Hne Hperm. revert a a'.
  induction Hperm as [|b l l' _ IH|b1 b2 l|l l' l'' _ IH1 _ IH2];
    intros a a' Hall.
  - done.
  - apply update_all_cons_Normal in Hall as [Hb Hl].
    apply update_all_cons_Normal. split; [done|by apply IH].
  - change (b1 :: b2 :: l) with ([b1; b2] ++ l).
    change (b2 :: b1 :: l) with ([b2; b1] ++ l) in Hall.
    rewrite update_all_app in Hall. rewrite update_all_app.
    destruct (update_all W t [b2; b1] a) as [[|] a1] eqn:H21; [|discriminate].
    by rewrite (update_all_swap a t b2 b1 a1 Hne H21).
  - by apply IH2, IH1.
Qed.

Lemma updateActivation_keeps_is_Some a t b t' b' :
  is_Some (activation a t' b') →
  is_Some (activation (updateActivation W t b a).2 t' b').
Proof.
  intros Hrec. destruct (decide ((t', b') = (t, b))) as [[= -> ->]|Hne].
  - by rewrite updateActivation_recorded_noop.
  - rewrite updateActivation_unfold.
    destruct (new_activation W a t b) as [v|]; simpl; [|done].
    unfold activation. simpl. rewrite store_activation_other by done. done.
Qed.

Lemma update_all_keeps_is_Some bels a t t' b' :
  is_Some (activation a t' b') →
  is_Some (activation (update_all W t bels a).2 t' b').
Proof.
  revert a. induction bels as [|b bels IH]; intros a Hrec; simpl; [done|].
  pose proof (updateActivation_keeps_is_Some a t b t' b' Hrec) as Hb.
  destruct (updateActivation W t b a) as [[|] a1]; simpl in *; [by apply IH|done].
Qed.

Lemma update_all_other_times bels a t t' :
  t' ≠ t →
  activationMap (update_all W t bels a).2 !! t' = activationMap a !! t'.
Proof.
  intros Hne. revert a. induction bels as [|b bels IH]; intros a; simpl; [done|].
  pose proof (updateActivation_other_times W a t b t' Hne) as Hb.
  destruct (updateActivation W t b a) as [[|] a1]; simpl in *;
    [by rewrite IH|done].
Qed.

Lemma update_all_holds bels a t a' :
  update_all W t bels a = (Normal, a') →
  ∀ b, b ∈ bels → is_Some (activation a' t b).
Proof.
  revert a. induction bels as [|b bels IH]; intros a Hall b' Hin.
  { by apply elem_of_nil in Hin. }
  apply update_all_cons_Normal in Hall as [Hb Hl].
  apply elem_of_cons in Hin as [->|Hin]; [|by apply (IH _ Hl)].
  pose proof (update_all_keeps_is_Some bels _ t t b
                (updateActivation_is_Some_after W a t b Hb)) as Hkeep.
  by rewrite Hl in Hkeep.
Qed.

Lemma update_all_fields bels a t :
  friends (update_all W t bels a).2 = friends a
  ∧ timeDeltaMap (update_all W t bels a).2 = timeDeltaMap a
  ∧ uuid (update_all W t bels a).2 = uuid a.
Proof.
  revert a. induction bels as [|b bels IH]; intros a; simpl; [done|].
  pose proof (updateActivation_friends W a t b) as Hf.
  pose proof (updateActivation_timeDeltaMap W a t b) as Htd.
  assert (uuid (updateActivation W t b a).2 = uuid a) as Hu.
  { rewrite updateActivation_unfold. by destruct (new_activation W a t b). }
  destruct (updateActivation W t b a) as [[|] a1]; simpl in *; [|done].
  destruct (IH a1) as (-> & -> & ->). done.
Qed.

(** X5: when the update phase of a tick at [t] ends normally, the agent
    holds every belief of the list at [t]; the beliefs it held before it
    still holds, and the sub-maps of the other times are as before. *)
Theorem update_all_holds_beliefs t bels a a' :
  update_all W t bels a = (Normal, a') →
  (∀ b, b ∈ bels → is_Some (activation a' t b))
  ∧ (∀ t' b', is_Some (activation a t' b') → is_Some (activation a' t' b'))
  ∧ (∀ t', t' ≠ t → activationMap a' !! t' = activationMap a !! t').
Proof.
  intros Hall. split; [|split].
  - by apply (update_all_holds bels a).
  - intros t' b' Hrec.
    pose proof (update_all_keeps_is_Some bels a t t' b' Hrec) as Hkeep.
    by rewrite Hall in Hkeep.
  - intros t' Hne. pose proof (update_all_other_times bels a t t' Hne) as Ho.
    by rewrite Hall in Ho.
Qed.

End update_phase.

Lemma updateActivation_creates_submap_witness :
  ∃ v, new_activation example_world example_agent 1 1%N = Some v
       ∧ activationMap (updateActivation example_world 1 1%N example_agent).2
           !! 1%Z = Some {[ 1%N := v ]}
       ∧ heldBeliefs (updateActivation example_world 1 1%N example_agent).2 1
         = Some [1%N]
       ∧ activation (updateActivation example_world 1 1%N example_agent).2
           1 1%N = Some v.
Proof.
  apply (updateActivation_creates_submap example_world example_agent 1 1%N);
    vm_compute; reflexivity.
Defined.

Lemma updateActivation_idempotent_witness :
  (updateActivation example_world 1 1%N
     (updateActivation example_world 1 1%N example_agent).2).2
  = (updateActivation example_world 1 1%N example_agent).2
  ∧ (to_sim_time example_world (1 - 1) ≠ 1%Z →
     (updateActivation example_world 1 1%N
        (updateActivation example_world 1 1%N example_agent).2).1 = Normal).
Proof.
  apply (updateActivation_idempotent example_world example_agent 1 1%N).
  vm_compute. reflexivity.
Defined.

(** On [example_agent_two] the updates of beliefs 1 and 2 at time 1 store
    3.5 and 1.5 in either order. *)
Lemma update_all_permutation_witness :
  update_all example_world 1 [2%N; 1%N] example_agent_two
  = (Normal, (update_all example_world 1 [1%N; 2%N] example_agent_two).2).
Proof.
  apply (update_all_permutation example_world 1 [1%N; 2%N] [2%N; 1%N]).
  - vm_compute. discriminate.
  - apply perm_swap.
  - vm_compute. reflexivity.
Defined.

Example update_all_example :
  activation (update_all example_world 1 [2%N; 1%N] example_agent_two).2 1 1%N
  = Some 3.5
  ∧ activation (update_all example_world 1 [2%N; 1%N] example_agent_two).2
      1 2%N = Some 1.5.
Proof. vm_compute. done. Qed.

Lemma update_all_holds_beliefs_witness :
  (∀ b, b ∈ [1%N; 2%N] →
     is_Some (activation
                (update_all example_world 1 [1%N; 2%N] example_agent_two).2 1 b))
  ∧ (∀ t' b', is_Some (activation example_agent_two t' b') →
       is_Some (activation
                  (update_all example_world 1 [1%N; 2%N] example_agent_two).2
                  t' b'))
  ∧ (∀ t', t' ≠ 1%Z →
       activationMap (update_all example_world 1 [1%N; 2%N] example_agent_two).2
         !! t' = activationMap example_agent_two !! t').
Proof.
  apply (update_all_holds_beliefs example_world 1 [1%N; 2%N]
           example_agent_two).
  vm_compute. reflexivity.
Defined.

(** * When the lookups throw *)

Lemma accumulate_is_Some_inv {A : Type} (term : A → option double)
    (xs : list A) (acc : double) :
  is_Some (accumulate term xs acc) → ∀ x, x ∈ xs → is_Some (term x).
Proof.
  intros Hacc x Hin. destruct (term x) as [v|] eqn:Hx; [by eexists|].
  rewrite (accumulate_None term xs x Hin Hx) in Hacc. by destruct Hacc.
Qed.

Lemma entries_NoDup {V : Type} (m : gmap N V) : NoDup (entries m).*1.
Proof.
  unfold entries. rewrite merge_sort_Permutation.
  apply NoDup_fst_map_to_list.
Qed.

Lemma entries_sorted {V : Type} (m : gmap N V) :
  StronglySorted N.le (entries m).*1.
Proof.
  apply (StronglySorted_fmap fst key_le N.le); [done|].
  apply StronglySorted_merge_sort; apply _.
Qed.

Lemma sorted_NoDup_strict (l : list N) :
  StronglySorted N.le l → NoDup l → StronglySorted N.lt l.
Proof.
  induction l as [|x l IH]; intros Hs Hnd; [constructor|].
  apply StronglySorted_cons in Hs as [Hx Hl].
  apply NoDup_cons in Hnd as [Hnx Hnd].
  apply StronglySorted_cons. split; [|by apply IH].
  apply Forall_forall. intros y Hy.
  pose proof (proj1 (Forall_forall _ _) Hx y Hy) as Hle.
  assert (x ≠ y) by (by intros ->). lia.
Qed.

Section lookups.
Variable W : World.
Implicit Types (a : Agent) (t : Z) (b : N).

(** X6: [heldBeliefs(t)] throws exactly when the time [t] has no sub-map;
    otherwise it lists, in strictly ascending order of address and so
    without repetition, exactly the beliefs that have an activation at
    [t]. *)
Theorem heldBeliefs_lists_held a t :
  (heldBeliefs a t = None ↔ activationMap a !! t = None)
  ∧ (∀ bs, heldBeliefs a t = Some bs →
       StronglySorted N.lt bs ∧ NoDup bs
       ∧ ∀ b, b ∈ bs ↔ is_Some (activation a t b)).
Proof.
  unfold heldBeliefs. destruct (activationMap a !! t) as [m|] eqn:Hm; simpl.
  - split; [done|]. intros bs [= <-]. split; [|split].
    + apply sorted_NoDup_strict; [apply entries_sorted|apply entries_NoDup].
    + apply entries_NoDup.
    + intros b. rewrite (activation_lookup a t b m Hm).
      apply elem_of_entries_keys.
  - split; [done|]. discriminate.
Qed.

Lemma observed_is_Some_inv a b t fr w :
  is_Some (observed W a b t) → friends a !! fr = Some w →
  ∃ beh r, friend_performed W fr t = Some beh
           ∧ observedBehaviourRelationship W b beh = Some r.
Proof.
  intros Hobs Hfr. unfold observed in Hobs.
  pose proof (accumulate_is_Some_inv _ _ _ Hobs (fr, w)) as Hterm.
  simpl in Hterm. destruct Hterm as [v Hv]; [by apply elem_of_entries|].
  destruct (friend_performed W fr t) as [beh|]; [|done]. simpl in Hv.
  destruct (observedBehaviourRelationship W b beh) as [r|] eqn:Hr; [|done].
  by exists beh, r.
Qed.

(** X7: [observed(b, t)] returns exactly when every friend has a performed
    behaviour at [t] for which the belief has an observed-behaviour
    weight; an agent with no friend observes 0.0. *)
Theorem observed_returns_iff a b t :
  (is_Some (observed W a b t)
   ↔ ∀ fr w, friends a !! fr = Some w →
       ∃ beh r, friend_performed W fr t = Some beh
                ∧ observedBehaviourRelationship W b beh = Some r)
  ∧ (friends a = ∅ → observed W a b t = Some 0).
Proof.
  split; [split|].
  - intros Hobs fr w. by apply observed_is_Some_inv.
  - apply observed_is_Some.
  - intros Hnone. unfold observed. by rewrite Hnone, entries_empty.
Qed.

Lemma contextualise_is_Some_inv a b t :
  is_Some (contextualise W a b t) →
  ∃ m, activationMap a !! t = Some m
       ∧ ∀ b2, is_Some (m !! b2) → is_Some (beliefRelationship W b b2).
Proof.
  unfold contextualise, heldBeliefs.
  destruct (activationMap a !! t) as [m|] eqn:Hm; simpl; [|by intros [? ?]].
  intros Hc. exists m. split; [done|]. intros b2 Hb2.
  destruct (accumulate (λ b2, act ← activation a t b2;
                              r ← beliefRelationship W b b2; Some (act * r))
              ((entries m).*1) 0) as [s|] eqn:Hs; [|by destruct Hc].
  pose proof (accumulate_is_Some_inv _ _ _ (mk_is_Some _ _ Hs) b2) as Hterm.
  simpl in Hterm. destruct Hterm as [v Hv]; [by apply elem_of_entries_keys|].
  destruct (activation a t b2); [|done]. simpl in Hv.
  destruct (beliefRelationship W b b2); [by eexists|done].
Qed.

(** X8: [contextualise(b, t)] returns exactly when the time [t] has a
    sub-map and the belief has a belief-relationship weight for every
    belief held at [t]. *)
Theorem contextualise_returns_iff a b t :
  is_Some (contextualise W a b t)
  ↔ ∃ m, activationMap a !! t = Some m
         ∧ ∀ b2, is_Some (m !! b2) → is_Some (beliefRelationship W b b2).
Proof.
  split; [apply contextualise_is_Some_inv|].
  intros (m & Hm & Hrel). by apply (contextualise_is_Some W a b t m).
Qed.

(** X9: [updateActivation(t, b)] returns exactly when the belief has a time
    delta and an activation at [t - 1], it has a belief-relationship weight
    for every belief held at [t - 1], and every friend has a performed
    behaviour at [t - 1] for which it has an observed-behaviour weight;
    otherwise the call throws. *)
Theorem updateActivation_returns_iff a t b :
  (updateActivation W t b a).1 = Normal
  ↔ is_Some (timeDelta a b)
    ∧ is_Some (activation a (to_sim_time W (t - 1)) b)
    ∧ (∀ b2, is_Some (activation a (to_sim_time W (t - 1)) b2) →
             is_Some (beliefRelationship W b b2))
    ∧ (∀ fr w, friends a !! fr = Some w →
         ∃ beh r, friend_performed W fr (to_sim_time W (t - 1)) = Some beh
                  ∧ observedBehaviourRelationship W b beh = Some r).
Proof.
  rewrite updateActivation_Normal. unfold new_activation, contextualObserved.
  split.
  - intros [v Hv].
    destruct (timeDelta a b) as [td|]; [|done]. simpl in Hv.
    destruct (activation a (to_sim_time W (t - 1)) b) as [act|] eqn:Hact;
      [|done]. simpl in Hv.
    destruct (contextualise W a b (to_sim_time W (t - 1))) as [c|] eqn:Hc;
      [|done]. simpl in Hv.
    destruct (observed W a b (to_sim_time W (t - 1))) as [o|] eqn:Ho; [|done].
    split; [by eexists|]. split; [by eexists|]. split.
    + destruct (contextualise_is_Some_inv a b _ (mk_is_Some _ _ Hc))
        as (m & Hm & Hrel).
      intros b2 Hb2. apply Hrel.
      by rewrite <- (activation_lookup a _ b2 m Hm).
    + intros fr w. by apply observed_is_Some_inv; rewrite Ho.
  - intros ([td ->] & [act Hact] & Hrel & Hfr). rewrite Hact. simpl.
    destruct (activationMap a !! to_sim_time W (t - 1)) as [m|] eqn:Hm;
      [|by unfold activation in Hact; rewrite Hm in Hact].
    destruct (contextualise_is_Some W a b _ m Hm) as [c ->].
    { intros b2 Hb2. apply Hrel.
      by rewrite (activation_lookup a _ b2 m Hm). }
    destruct (observed_is_Some W a b _ Hfr) as [o ->]. by eexists.
Qed.

End lookups.

Lemma heldBeliefs_example :
  heldBeliefs example_agent_two 0 = Some [1%N; 2%N]
  ∧ heldBeliefs example_agent_two 1 = None.
Proof. vm_compute. done. Qed.

(** * Further properties of utility and selection *)

Section selection_more.
Variable W : World.
Implicit Types (a : Agent) (t : Z) (s : scan) (bs : list N)
  (cs : list (N * double)).

Lemma utility_without_beliefs a beh t :
  activationMap a !! t = Some ∅ → utility W a beh t = Some 0.
Proof.
  intros Hm. unfold utility, contextualBehaviour. rewrite Hm. simpl.
  by rewrite entries_empty.
Qed.

(** X10: [utility(beh, t)] returns exactly when the time [t] has a sub-map
    and every belief held at [t] has a performing weight for [beh] and a
    belief-relationship weight for every belief held at [t]; with no
    belief held at [t] the utility of every behaviour is 0.0. *)
Theorem utility_returns_iff a beh t :
  (is_Some (utility W a beh t)
   ↔ ∃ m, activationMap a !! t = Some m
          ∧ ∀ bel, is_Some (m !! bel) →
              is_Some (performingBehaviourRelationship W bel beh)
              ∧ ∀ b2, is_Some (m !! b2) →
                      is_Some (beliefRelationship W bel b2))
  ∧ (activationMap a !! t = Some ∅ → utility W a beh t = Some 0).
Proof.
  split; [split|].
  - unfold utility, contextualBehaviour.
    destruct (activationMap a !! t) as [m|] eqn:Hm; simpl; [|by intros [? ?]].
    intros Hut. exists m. split; [done|]. intros bel [act Hact].
    destruct (accumulate (λ '(belief, _), contextualBeliefBehaviour W a belief beh t)
                (entries m) 0) as [cb|] eqn:Hcb; [|by destruct Hut].
    pose proof (accumulate_is_Some_inv _ _ _ (mk_is_Some _ _ Hcb) (bel, act))
      as Hterm.
    simpl in Hterm. destruct Hterm as [v Hv]; [by apply elem_of_entries|].
    unfold contextualBeliefBehaviour, beliefBehaviour in Hv.
    destruct (contextualise W a bel t) as [c|] eqn:Hc; [|done]. simpl in Hv.
    destruct (performingBehaviourRelationship W bel beh) as [r|]; [|done].
    split; [by eexists|].
    destruct (contextualise_is_Some_inv W a bel t (mk_is_Some _ _ Hc))
      as (m' & Hm' & Hrel).
    rewrite Hm in Hm'. by injection Hm' as <-.
  - intros (m & Hm & Hdef). unfold utility, contextualBehaviour.
    rewrite Hm. simpl.
    destruct (accumulate_is_Some
      (λ '(belief, _), contextualBeliefBehaviour W a belief beh t)
      (entries m)) with (acc := 0%float) as [cb Hcb].
    + intros [bel act] Hin%elem_of_entries.
      destruct (Hdef bel) as [[r Hr] Hrel]; [by eexists|].
      destruct (contextualise_is_Some W a bel t m Hm Hrel) as [c Hc].
      unfold contextualBeliefBehaviour, beliefBehaviour.
      rewrite Hc, Hr, (activation_lookup a t bel m Hm), Hin. by eexists.
    + rewrite Hcb. by eexists.
  - apply utility_without_beliefs.
Qed.



(** However [perform] ends, it has thrown with the agent as it was, or
    returned with one behaviour recorded at [t]. *)
Lemma perform_ends_with a t bs r :
  ends_with (perform W t bs a) r →
  r = (OutOfRange, a) ∨ ∃ b, r = (Normal, record_performed t b a).
Proof.
  unfold perform.
  destruct (scan_loop W a t bs scan_init) as [s|]; simpl; [|by left].
  destruct (length (positiveUtilities s) <=? 1)%nat; simpl.
  - intros ->. right. by eexists.
  - intros [i ->]. right. by eexists.
Qed.

(** X12: however it ends, [perform(t, bs)] changes nothing of the agent but
    the behaviour performed at [t]: the activations, the friends, the time
    deltas, the identifier and the behaviours performed at other times are
    as before. *)
Theorem perform_frame a t bs r :
  ends_with (perform W t bs a) r →
  activationMap r.2 = activationMap a
  ∧ friends r.2 = friends a
  ∧ timeDeltaMap r.2 = timeDeltaMap a
  ∧ uuid r.2 = uuid a
  ∧ ∀ t', t' ≠ t → performed r.2 t' = performed a t'.
Proof.
  assert (∀ b t', t' ≠ t →
            performed (record_performed t b a) t' = performed a t') as Hother.
  { intros b t' Hne. unfold performed, record_performed, insert_or_assign.
    simpl. by apply lookup_insert_ne. }
  unfold perform.
  destruct (scan_loop W a t bs scan_init) as [s|]; simpl;
    [|by intros ->; simpl].
  destruct (length (positiveUtilities s) <=? 1)%nat; simpl.
  - intros ->. simpl. repeat split; try done. apply Hother.
  - intros [i ->]. simpl. repeat split; try done. apply Hother.
Qed.

Lemma scan_step_positiveBehaviours s b u :
  positiveBehaviours (scan_step s b u)
  = positiveBehaviours s ++ (if 0 <? u then [b] else []).
Proof.
  unfold scan_step.
  destruct (maxUtility s <? u), (0 <? u); simpl; by rewrite ?app_nil_r.
Qed.

(** The two vectors of [perform] list the candidates of positive utility,
    in the order of the candidates. *)
Lemma scan_fold_positive cs s :
  positiveBehaviours (foldl (λ s c, scan_step s c.1 c.2) s cs)
  = positiveBehaviours s ++ (positive_candidates cs).*1
  ∧ positiveUtilities (foldl (λ s c, scan_step s c.1 c.2) s cs)
    = positiveUtilities s ++ (positive_candidates cs).*2.
Proof.
  revert s. induction cs as [|[b u] cs IH]; intros s; simpl.
  - by rewrite !app_nil_r.
  - destruct (IH (scan_step s b u)) as [-> ->].
    rewrite scan_step_positiveBehaviours, scan_step_positiveUtilities.
    unfold positive_candidates. rewrite filter_cons. simpl.
    destruct (0 <? u); case_decide; try done; simpl;
      by rewrite <- ?app_assoc, ?app_nil_r.
Qed.

(** X13: when every candidate's utility is defined and at least two are
    above 0, [perform(t, candidates)] draws an index with the utilities
    above 0 as weights, in the order of the candidates, and records the
    candidate that has the weight drawn: a candidate of positive utility. *)
Theorem perform_draws_among_positive a t cs :
  (∀ c, c ∈ cs → utility W a c.1 t = Some c.2) →
  2 ≤ length (positive_candidates cs) →
  ∃ k, perform W t (cs.*1) a = Rand (positive_candidates cs).*2 k
       ∧ ∀ i c, positive_candidates cs !! i = Some c →
           k i = (Normal, record_performed t c.1 a)
           ∧ performed (k i).2 t = Some c.1
           ∧ c ∈ cs ∧ (0 <? c.2) = true.
Proof.
  intros Hut Htwo. unfold perform.
  rewrite (scan_loop_fold W a t cs scan_init Hut).
  destruct (scan_fold_positive cs scan_init) as [Hbs Hus]. simpl in Hbs, Hus.
  rewrite Hus, Hbs, length_fmap.
  rewrite (proj2 (Nat.leb_gt _ 1)) by lia.
  eexists. split; [done|]. intros i c Hi. simpl.
  assert (nth i (positive_candidates cs).*1 nullptr = c.1) as ->.
  { apply nth_lookup_Some. by rewrite list_lookup_fmap, Hi. }
  split; [done|]. split; [apply performed_record_performed|].
  apply list_elem_of_lookup_2 in Hi.
  by apply list_elem_of_filter in Hi as [? ?].
Qed.

(** The behaviour that the scan holds is the one it started with or a
    candidate, and the behaviours it collects are candidates. *)
Lemma scan_loop_candidates a t bs s s' :
  scan_loop W a t bs s = Some s' →
  (maxBehaviour s' = maxBehaviour s ∨ maxBehaviour s' ∈ bs)
  ∧ ∀ b, b ∈ positiveBehaviours s' → b ∈ positiveBehaviours s ∨ b ∈ bs.
Proof.
  revert s. induction bs as [|b bs IH]; intros s; simpl.
  - intros [= <-]. split; [by left|]. intros b Hb. by left.
  - destruct (utility W a b t) as [ut|]; simpl; [|done].
    intros [Hmax Hpos]%IH. split.
    + destruct Hmax as [->|Hin]; [|right; by right].
      rewrite scan_step_maxBehaviour.
      destruct (maxUtility s <? ut); [right; by left|by left].
    + intros b' [Hb'|Hb']%Hpos; [|right; by right].
      rewrite scan_step_positiveBehaviours in Hb'.
      apply elem_of_app in Hb' as [Hb'|Hb']; [by left|].
      destruct (0 <? ut); [|by apply elem_of_nil in Hb'].
      apply list_elem_of_singleton in Hb' as ->. right. by left.
Qed.

(** X14: [perform(t, bs)] never records a behaviour that is neither a
    candidate nor null: however it ends normally, it has recorded at [t]
    one of the candidates or [nullptr]. *)
Theorem perform_records_candidate_or_null a t bs r :
  ends_with (perform W t bs a) r → r.1 = Normal →
  ∃ b, r.2 = record_performed t b a
       ∧ performed r.2 t = Some b
       ∧ (b ∈ bs ∨ b = nullptr).
Proof.
  unfold perform.
  destruct (scan_loop W a t bs scan_init) as [s|] eqn:Hs; [|by intros ->].
  destruct (scan_loop_candidates a t bs scan_init s Hs) as [Hmax Hpos].
  destruct (length (positiveUtilities s) <=? 1)%nat; simpl.
  - intros -> _. exists (maxBehaviour s). split; [done|].
    split; [apply performed_record_performed|].
    destruct Hmax as [->|Hin]; [by right|by left].
  - intros [i ->] _. exists (nth i (positiveBehaviours s) nullptr).
    split; [done|]. split; [apply performed_record_performed|].
    destruct (nth_in_or_default i (positiveBehaviours s) nullptr)
      as [Hin|Hdef]; [|by right].
    apply list_elem_of_In in Hin.
    destruct (Hpos _ Hin) as [Hnil|Hbs]; [by apply elem_of_nil in Hnil|by left].
Qed.

(** Without a belief held at [t] the scan stays where the first candidate
    has put it. *)
Lemma scan_loop_zero a t bs s :
  activationMap a !! t = Some ∅ → maxUtility s = 0 →
  scan_loop W a t bs s = Some s.
Proof.
  intros Hm Hs. induction bs as [|b bs IH]; simpl; [done|].
  rewrite (utility_without_beliefs a b t Hm). simpl.
  assert (scan_step s b 0 = s) as ->; [|done].
  unfold scan_step. rewrite Hs. simpl. by destruct s.
Qed.

(** X15: an agent that holds no belief at [t] gives every behaviour the
    utility 0.0, and [perform(t, candidates)] with at least one candidate
    records the first candidate, without drawing. *)
Theorem perform_without_beliefs a t b bs :
  activationMap a !! t = Some ∅ →
  (∀ beh, utility W a beh t = Some 0)
  ∧ perform W t (b :: bs) a = Det (Normal, record_performed t b a).
Proof.
  intros Hm. split; [intros beh; by apply utility_without_beliefs|].
  unfold perform. simpl. rewrite (utility_without_beliefs a b t Hm). simpl.
  by rewrite (scan_loop_zero a t bs (scan_step scan_init b 0) Hm).
Qed.

(** The scan of [perform] does not read the performed record. *)
Lemma scan_loop_performedMap a t bs s pm :
  scan_loop W (set_performedMap pm a) t bs s = scan_loop W a t bs s.
Proof.
  revert s. induction bs as [|b bs IH]; intros s; simpl; [done|].
  change (utility W (set_performedMap pm a) b t) with (utility W a b t).
  destruct (utility W a b t); simpl; [apply IH|done].
Qed.

Lemma record_performed_inj a t b b' :
  record_performed t b a = record_performed t b' a → b = b'.
Proof.
  intros Heq. apply (f_equal (λ x, performed x t)) in Heq.
  rewrite !performed_record_performed in Heq. by injection Heq.
Qed.

(** X16: a [perform(t, bs)] that records a behaviour without drawing does
    not depend on what the agent has performed: it records the same
    behaviour after any [_addPerformed], and when it is run again on the
    agent it has left, which it leaves as it is. *)
Theorem perform_again a t bs b :
  perform W t bs a = Det (Normal, record_performed t b a) →
  (∀ t0 b0, perform W t bs (_addPerformed t0 b0 a)
            = Det (Normal, record_performed t b (_addPerformed t0 b0 a)))
  ∧ perform W t bs (record_performed t b a)
    = Det (Normal, record_performed t b a).
Proof.
  unfold perform.
  destruct (scan_loop W a t bs scan_init) as [s|] eqn:Hs; [|discriminate].
  destruct (length (positiveUtilities s) <=? 1)%nat eqn:Hlen; [|discriminate].
  intros Heq.
  assert (record_performed t (maxBehaviour s) a = record_performed t b a)
    as Hb%record_performed_inj by congruence.
  subst b. clear Heq. split.
  - intros t0 b0. unfold _addPerformed.
    by rewrite scan_loop_performedMap, Hs, Hlen.
  - unfold record_performed at 1.
    rewrite scan_loop_performedMap, Hs, Hlen. do 2 f_equal.
    unfold record_performed, set_performedMap, insert_or_assign. simpl.
    by rewrite insert_insert_eq.
Qed.

End selection_more.

(** * Setters, updates and ticks together *)

Section composition.
Variable W : World.
Implicit Types (a : Agent) (t : Z) (b : N) (bels : list N).

(** X17: setting the time delta of one belief and updating the activation
    of another can be done in either order: the update ends the same way
    and the two orders leave the same agent. *)
Theorem setTimeDelta_updateActivation_comm a t b b' (td : double) :
  b ≠ b' →
  updateActivation W t b' (setTimeDelta b td a)
  = ((updateActivation W t b' a).1,
     setTimeDelta b td (updateActivation W t b' a).2).
Proof.
  intros Hne.
  assert (new_activation W (setTimeDelta b td a) t b'
          = new_activation W a t b') as Hnew.
  { unfold new_activation, timeDelta, setTimeDelta, insert_or_assign. simpl.
    by rewrite lookup_insert_ne. }
  rewrite !updateActivation_unfold, Hnew.
  by destruct (new_activation W a t b').
Qed.

(** X18: however a tick at [t] ends, it leaves the friends, the time
    deltas, the identifier, the sub-maps of the other times and the
    behaviours performed at other times; when it ends normally, a
    behaviour is performed at [t] and every belief of the list is held at
    [t]. *)
Theorem tick_frame t behs bels a r :
  ends_with (tick W t behs bels a) r →
  friends r.2 = friends a
  ∧ timeDeltaMap r.2 = timeDeltaMap a
  ∧ uuid r.2 = uuid a
  ∧ (∀ t', t' ≠ t → activationMap r.2 !! t' = activationMap a !! t')
  ∧ (∀ t', t' ≠ t → performed r.2 t' = performed a t')
  ∧ (r.1 = Normal →
     is_Some (performed r.2 t) ∧ ∀ b, b ∈ bels → is_Some (activation r.2 t b)).
Proof.
  unfold tick.
  destruct (update_all_fields W bels a t) as (Hf & Htd & Hu).
  pose proof (update_all_performedMap W bels a t) as Hpm.
  pose proof (λ t' (H : t' ≠ t), update_all_other_times W bels a t t' H) as Ham.
  pose proof (update_all_holds W bels a t) as Hheld.
  destruct (update_all W t bels a) as [[|] a1]; simpl in *.
  - intros [->|[b ->]]%perform_ends_with; simpl.
    + repeat split; try done.
      * intros t' Hne. unfold performed. by rewrite Hpm.
    + repeat split; try done.
      * intros t' Hne.
        unfold performed, record_performed, set_performedMap, insert_or_assign.
        simpl. rewrite lookup_insert_ne by done. by rewrite Hpm.
      * rewrite performed_record_performed. by eexists.
      * intros b' Hb'. by apply (Hheld a1).
  - intros ->. simpl. repeat split; try done.
    intros t' Hne. unfold performed. by rewrite Hpm.
Qed.

End composition.

(** [perform] on [example_agent] at time 0 with the candidates 6 and 5. *)
Lemma perform_frame_witness :
  activationMap (Normal, record_performed 0 5%N example_agent).2
  = activationMap example_agent
  ∧ friends (Normal, record_performed 0 5%N example_agent).2
    = friends example_agent
  ∧ timeDeltaMap (Normal, record_performed 0 5%N example_agent).2
    = timeDeltaMap example_agent
  ∧ uuid (Normal, record_performed 0 5%N example_agent).2 = uuid example_agent
  ∧ ∀ t', t' ≠ 0%Z →
      performed (Normal, record_performed 0 5%N example_agent).2 t'
      = performed example_agent t'.
Proof.
  apply (perform_frame example_world example_agent 0 [6%N; 5%N]).
  vm_compute. reflexivity.
Defined.

(** In [example_world_keen] the candidates 5 and 6 have the utilities 3
    and 1 for [example_agent] at time 0. *)
Lemma perform_draws_among_positive_witness :
  ∃ k, perform example_world_keen 0 [5%N; 6%N] example_agent
       = Rand (positive_candidates [(5%N, 3); (6%N, 1)]).*2 k
       ∧ ∀ i c, positive_candidates [(5%N, 3); (6%N, 1)] !! i = Some c →
           k i = (Normal, record_performed 0 c.1 example_agent)
           ∧ performed (k i).2 0 = Some c.1
           ∧ c ∈ [(5%N, 3); (6%N, 1)] ∧ (0 <? c.2) = true.
Proof.
  apply (perform_draws_among_positive example_world_keen example_agent 0
           [(5%N, 3); (6%N, 1)]).
  - intros c [->|[->|[]%elem_of_nil]%elem_of_cons]%elem_of_cons;
      vm_compute; reflexivity.
  - vm_compute. lia.
Defined.

Lemma perform_records_candidate_or_null_witness :
  ∃ b, (Normal, record_performed 0 5%N example_agent).2
       = record_performed 0 b example_agent
       ∧ performed (Normal, record_performed 0 5%N example_agent).2 0 = Some b
       ∧ (b ∈ [6%N; 5%N] ∨ b = nullptr).
Proof.
  apply (perform_records_candidate_or_null example_world example_agent 0
           [6%N; 5%N]); vm_compute; reflexivity.
Defined.

Lemma perform_without_beliefs_witness :
  (∀ beh, utility example_world example_agent_idle beh 0 = Some 0)
  ∧ perform example_world 0 [6%N; 5%N] example_agent_idle
    = Det (Normal, record_performed 0 6%N example_agent_idle).
Proof.
  apply (perform_without_beliefs example_world example_agent_idle 0 6%N [5%N]).
  vm_compute. reflexivity.
Defined.

Lemma perform_again_witness :
  (∀ t0 b0, perform example_world 0 [6%N; 5%N] (_addPerformed t0 b0 example_agent)
            = Det (Normal,
                   record_performed 0 5%N (_addPerformed t0 b0 example_agent)))
  ∧ perform example_world 0 [6%N; 5%N] (record_performed 0 5%N example_agent)
    = Det (Normal, record_performed 0 5%N example_agent).
Proof.
  apply (perform_again example_world example_agent 0 [6%N; 5%N] 5%N).
  vm_compute. reflexivity.
Defined.

Lemma setTimeDelta_updateActivation_comm_witness :
  updateActivation example_world 1 1%N (setTimeDelta 2%N 4 example_agent)
  = ((updateActivation example_world 1 1%N example_agent).1,
     setTimeDelta 2%N 4 (updateActivation example_world 1 1%N example_agent).2).
Proof.
  apply (setTimeDelta_updateActivation_comm example_world example_agent 1
           2%N 1%N 4).
  discriminate.
Defined.

(** The tick of [example_agent] at time 1 with belief 1 and the candidates
    5 and 6 ends normally with behaviour 5 recorded. *)
Lemma tick_frame_witness :
  friends (Normal, record_performed 1 5%N example_agent_updated).2
  = friends example_agent
  ∧ timeDeltaMap (Normal, record_performed 1 5%N example_agent_updated).2
    = timeDeltaMap example_agent
  ∧ uuid (Normal, record_performed 1 5%N example_agent_updated).2
    = uuid example_agent
  ∧ (∀ t', t' ≠ 1%Z →
       activationMap (Normal, record_performed 1 5%N example_agent_updated).2
         !! t' = activationMap example_agent !! t')
  ∧ (∀ t', t' ≠ 1%Z →
       performed (Normal, record_performed 1 5%N example_agent_updated).2 t'
       = performed example_agent t')
  ∧ ((Normal, record_performed 1 5%N example_agent_updated).1 = Normal →
     is_Some (performed
                (Normal, record_performed 1 5%N example_agent_updated).2 1)
     ∧ ∀ b, b ∈ [1%N] →
         is_Some (activation
                    (Normal, record_performed 1 5%N example_agent_updated).2
                    1 b)).
Proof.
  apply (tick_frame example_world 1 [5%N; 6%N] [1%N] example_agent).
  vm_compute. reflexivity.
Defined.
